(** * Anomaly detection from KernelPCA reconstruction error

    A shallow embedding of [recon_error_kpca.py] (class [KPCA_Recon_Error])
    and the properties of its five operations: [get_ev_ratio],
    [reconstruct_matrix], [get_anomaly_score], [get_anomaly_indices] and
    [predict].

    Numbers.  The matrices and the scores are computed in exact rational
    arithmetic: there a float64 is modelled as a rational ([Q]), and results
    about these numbers are stated up to [Qeq].  Where the rounding of
    float64 decides what the code returns, the float64 is modelled itself
    (type [float64], rounding to nearest with ties to even, overflow to an
    infinity): the number of rows to flag,
    [int(np.ceil(len(self.matrix) * self.contamination))], and a second
    embedding of [get_ev_ratio], [get_ev_ratio64], in which every sum and
    every quotient is rounded.

    Collaborators.  The scikit-learn and NumPy routines the class calls but
    does not define ([StandardScaler], [KernelPCA], [np.sqrt], [np.argsort],
    and the order in which [np.sum] adds floats) are the fields of the
    classes [Collaborators] and [FloatSum]; the pipeline is written once,
    over any instance.  [np.random.choice] draws from NumPy's global
    generator, which the constructor's [random_state] does not seed: the
    state of that generator is threaded through the operations. *)

From Stdlib Require Import List ZArith QArith Qround Qabs Qpower Lia Lqa.
From Stdlib Require Import Bool Arith Permutation Sorted String.
Import ListNotations.

Local Open Scope Q_scope.

(** ** Data *)

Definition vector := list Q.
(** A matrix is the list of its rows. *)
Definition matrix := list vector.

(** [len(m)]: the number of rows. *)
Definition nrows (m : matrix) : nat := List.length m.
(** [m.shape[1]]: the number of columns (of a matrix with a row; the
    standardizer accepts no other). *)
Definition ncols (m : matrix) : nat :=
  match m with
  | [] => 0%nat
  | r :: _ => List.length r
  end.
(** [m.shape] *)
Definition shape (m : matrix) : nat * nat := (nrows m, ncols m).

Definition shape_eqb (s t : nat * nat) : bool :=
  Nat.eqb (fst s) (fst t) && Nat.eqb (snd s) (snd t).

(** Equality of vectors and matrices up to the value of their entries. *)
Definition veq : vector -> vector -> Prop := Forall2 Qeq.
Definition meq : matrix -> matrix -> Prop := Forall2 veq.

(** ** Exceptions and the global random generator *)

Inductive exn : Type :=
| ValueError (msg : string)
| AssertionError (msg : string)
| OverflowError (msg : string).

Definition result (A : Type) : Type := (exn + A)%type.

(** The state of NumPy's global generator.  Only what the class draws from
    it matters, so a state is a natural number that enumerates the samples
    (see [np_random_choice2]). *)
Definition RandomState := nat.

(** A computation that may raise and that may draw from the generator. *)
Definition M (A : Type) : Type := RandomState -> result A * RandomState.

Definition ret {A} (a : A) : M A := fun g => (inr a, g).
Definition raise {A} (e : exn) : M A := fun g => (inl e, g).
Definition bind {A B} (c : M A) (k : A -> M B) : M B :=
  fun g =>
    match c g with
    | (inl e, g') => (inl e, g')
    | (inr a, g') => k a g'
    end.
Definition lift {A} (r : result A) : M A := fun g => (r, g).

Notation "x <- c ;; k" := (bind c (fun x => k))
  (at level 61, c at next level, right associativity).

(** [[f(x) for x in xs]], stopping at the first exception. *)
Fixpoint mapM {A B} (f : A -> result B) (xs : list A) : result (list B) :=
  match xs with
  | [] => inr []
  | x :: xs' =>
      match f x with
      | inl e => inl e
      | inr y =>
          match mapM f xs' with
          | inl e => inl e
          | inr ys => inr (y :: ys)
          end
      end
  end.

(** [np.random.choice(range(col), size=2, replace=False)]: a [ValueError]
    when the population has fewer than two elements, otherwise two distinct
    indices below [col], decoded from the state of the generator. *)
Definition sample_too_large : string :=
  "Cannot take a larger sample than population when 'replace=False'".

Definition np_random_choice2 (col : nat) : M (nat * nat) :=
  fun g =>
    if Nat.ltb col 2 then (inl (ValueError sample_too_large), g)
    else
      let i := Nat.modulo g col in
      let j := Nat.modulo (i + 1 + Nat.modulo (Nat.div g col) (col - 1)) col in
      (inr (i, j), S g).

(** ** Floating-point numbers

    A float64 is a finite rational on the binary64 grid, an infinity or
    NaN.  (The two zeros are not told apart: no operation of the class
    depends on the sign of a zero.) *)

Inductive float64 : Type :=
| Finite (x : Q)
| Infinity (negative : bool)
| NaN.

Definition pow2 (e : Z) : Q := 2 ^ e.

(** The exponent [e] with [2^e <= x < 2^(e+1)], for [x > 0]. *)
Definition log2_floor (x : Q) : Z :=
  let e := (Z.log2 (Qnum x) - Z.log2 (Zpos (Qden x)))%Z in
  if Qle_bool (pow2 e) x then e else (e - 1)%Z.

(** The nearest integer, a tie going to the even one. *)
Definition round_half_even (m : Q) : Z :=
  let f := Qfloor m in
  match Qcompare (m - inject_Z f) (1 # 2) with
  | Lt => f
  | Gt => (f + 1)%Z
  | Eq => if Z.even f then f else (f + 1)%Z
  end.

(** The exponent of the spacing of the binary64 grid around [x]: 53
    significant bits, and the spacing [2^-1074] of the subnormal numbers
    below [2^-1022]. *)
Definition ulp_exponent (x : Q) : Z :=
  Z.max (log2_floor (Qabs x) - 52) (-1074).

(** The point of the (unbounded) binary64 grid nearest to [x]. *)
Definition round_nearest (x : Q) : Q :=
  if Qeq_bool x 0 then 0
  else
    let u := pow2 (ulp_exponent x) in
    Qred (inject_Z (round_half_even (x / u)) * u).

(** Rounding to float64: a result of magnitude [2^1024] or more is an
    infinity. *)
Definition round64 (x : Q) : float64 :=
  let r := round_nearest x in
  if Qle_bool (pow2 1024) (Qabs r) then Infinity (negb (Qle_bool 0 r))
  else Finite r.

(** The float a decimal literal such as [0.28] denotes. *)
Definition float_literal (q : Q) : float64 := round64 q.

(** [float(n)] for the length of an array. *)
Definition float_of_nat (n : nat) : float64 := round64 (inject_Z (Z.of_nat n)).

(** [a * b] on floats. *)
Definition fmul (a b : float64) : float64 :=
  match a, b with
  | Finite x, Finite y => round64 (x * y)
  | Finite x, Infinity s =>
      if Qeq_bool x 0 then NaN else Infinity (xorb (negb (Qle_bool 0 x)) s)
  | Infinity s, Finite y =>
      if Qeq_bool y 0 then NaN else Infinity (xorb s (negb (Qle_bool 0 y)))
  | Infinity s, Infinity t => Infinity (xorb s t)
  | _, _ => NaN
  end.

(** [np.ceil] *)
Definition np_ceil (a : float64) : float64 :=
  match a with
  | Finite x => Finite (inject_Z (Qceiling x))
  | _ => a
  end.

(** [int(a)] truncates a finite float toward zero and raises on the
    others. *)
Definition Qtruncate (x : Q) : Z :=
  if Qle_bool 0 x then Qfloor x else Qceiling x.

Definition infinity_to_integer : string :=
  "cannot convert float infinity to integer".
Definition nan_to_integer : string :=
  "cannot convert float NaN to integer".

Definition int_of_float (a : float64) : result Z :=
  match a with
  | Finite x => inr (Qtruncate x)
  | Infinity _ => inl (OverflowError infinity_to_integer)
  | NaN => inl (ValueError nan_to_integer)
  end.

(** Sums and quotients of finite floats, on the range where the result is
    finite: the exact result rounded to the grid. *)
Definition fadd (x y : Q) : Q := round_nearest (x + y).
Definition fdiv (x y : Q) : Q := round_nearest (x / y).

(** The unit roundoff [2^-53] and the smallest normal number [2^-1022]. *)
Definition unit_roundoff : Q := pow2 (-53).
Definition smallest_normal : Q := pow2 (-1022).

(** ** NumPy on vectors and matrices *)

(** [map(f, xs, ys)] and the element-wise operations on arrays of one
    shape: the pairing stops at the shorter sequence. *)
Fixpoint map2 {A B C} (f : A -> B -> C) (xs : list A) (ys : list B) : list C :=
  match xs, ys with
  | x :: xs', y :: ys' => f x y :: map2 f xs' ys'
  | _, _ => []
  end.

(** [np.sum(v)] *)
Definition np_sum (v : vector) : Q := fold_left Qplus v 0.

(** [np.cumsum(v)] *)
Fixpoint cumsum_from (acc : Q) (v : vector) : vector :=
  match v with
  | [] => []
  | x :: v' => (acc + x) :: cumsum_from (acc + x) v'
  end.
Definition np_cumsum (v : vector) : vector := cumsum_from 0 v.

(** [np.cumsum(v)] on floats: the first entry is kept, every later entry is
    the rounded sum of the entry before it and the next number. *)
Fixpoint cumsum64_from (acc : Q) (v : vector) : vector :=
  match v with
  | [] => []
  | x :: v' => fadd acc x :: cumsum64_from (fadd acc x) v'
  end.
Definition np_cumsum64 (v : vector) : vector :=
  match v with
  | [] => []
  | x :: v' => x :: cumsum64_from x v'
  end.

(** [a] is a sum of the entries of [v] by rounded additions: every entry is
    used once, in some order and with some bracketing. *)
Inductive RoundedSum : vector -> Q -> Prop :=
| sum_one (x : Q) : RoundedSum [x] x
| sum_add (l1 l2 : vector) (a b : Q) :
    RoundedSum l1 a -> RoundedSum l2 b -> RoundedSum (l1 ++ l2) (fadd a b)
| sum_perm (l l' : vector) (a : Q) :
    Permutation l l' -> RoundedSum l a -> RoundedSum l' a.

(** The number of entries of a vector, as a rational. *)
Definition lengthQ (l : vector) : Q := inject_Z (Z.of_nat (List.length l)).

(** [np.square(v)] *)
Definition np_square (v : vector) : vector := map (fun x => x * x) v.

(** [a - b] on vectors and on matrices of one shape. *)
Definition vsub (a b : vector) : vector := map2 Qminus a b.
Definition msub (a b : matrix) : matrix := map2 vsub a b.
(** [a + b] on vectors. *)
Definition vadd (a b : vector) : vector := map2 Qplus a b.
(** [v * s] for a scalar [s]. *)
Definition vscale (v : vector) (s : Q) : vector := map (fun x => x * s) v.
(** [-v] *)
Definition vneg (v : vector) : vector := map Qopp v.

(** [np.sum(vs, axis=0)] on a list of vectors of one length: the rows are
    added in order, starting from the first.  On the empty list NumPy
    returns the scalar [0.0]; [np.argsort] reads a scalar as an array of
    one element, which is how it is kept here. *)
Definition np_sum_axis0 (vs : list vector) : vector :=
  match vs with
  | [] => [0]
  | v :: vs' => fold_left vadd vs' v
  end.

(** [np.all(a == b)] on two matrices. *)
Fixpoint veqb (a b : vector) : bool :=
  match a, b with
  | [], [] => true
  | x :: a', y :: b' => Qeq_bool x y && veqb a' b'
  | _, _ => false
  end.
Fixpoint meqb (a b : matrix) : bool :=
  match a, b with
  | [], [] => true
  | r :: a', s :: b' => veqb r s && meqb a' b'
  | _, _ => false
  end.

(** [xs[:stop]] for a Python integer [stop]: a negative [stop] counts from
    the end. *)
Definition slice_to {A} (xs : list A) (stop : Z) : list A :=
  if (0 <=? stop)%Z then firstn (Z.to_nat stop) xs
  else firstn (List.length xs - Z.to_nat (- stop)) xs.

(** [i in xs] for an array of indices. *)
Definition index_in (i : nat) (xs : list nat) : bool := existsb (Nat.eqb i) xs.

(** ** The collaborators *)

Class Collaborators : Type := {
  (** [StandardScaler().fit_transform(matrix)] *)
  StandardScaler_fit_transform : matrix -> matrix;
  (** A fitted [KernelPCA] object. *)
  transformer : Type;
  (** [KernelPCA(n_components, kernel, gamma, fit_inverse_transform=True,
      random_state).fit_transform(X)]: the fitted object and the
      transformed data.  [n_components = None] asks for all components. *)
  KernelPCA_fit_transform :
    option nat -> string -> option Q -> Z -> matrix -> transformer * matrix;
  (** [transformer.lambdas_]: the eigenvalues kept by the fit. *)
  lambdas_ : transformer -> vector;
  (** [transformer.inverse_transform(X_transformed)] *)
  inverse_transform : transformer -> matrix -> matrix;
  (** [np.sqrt] *)
  np_sqrt : Q -> Q;
  (** [np.argsort(v)] with the default [kind]. *)
  np_argsort : vector -> list nat
}.

(** What NumPy documents of [np.argsort]: the result lists the positions of
    [v] once each, in an order along which the values do not decrease.
    The default [kind] is quicksort, which is not stable, so nothing is said
    of the order of positions that hold equal values. *)
Definition ascending (v : vector) (idx : list nat) : Prop :=
  StronglySorted (fun i j => nth i v 0 <= nth j v 0) idx.

Class ArgsortContract (C : Collaborators) : Prop := {
  argsort_perm : forall v, Permutation (np_argsort v) (seq 0 (List.length v));
  argsort_ascending : forall v, ascending v (np_argsort v)
}.

(** [np.sum] on floats.  NumPy adds the entries in blocks and in pairs, in
    an order that depends on the length of the array and on the build: the
    routine is a collaborator, and what is kept of it is that its result is
    a sum of the entries by rounded additions. *)
Class FloatSum : Type := {
  np_sum64 : vector -> Q
}.

Class FloatSumContract (F : FloatSum) : Prop := {
  np_sum64_rounded : forall v, v <> [] -> RoundedSum v (np_sum64 v)
}.

(** ** The class [KPCA_Recon_Error] *)

Record KPCA_Recon_Error : Type := {
  self_matrix : matrix;
  contamination : float64;
  kernel : string;
  gamma : option Q;
  random_state : Z
}.

Definition shape_description : string :=
  "The shape of the reconstruction matrix should be equal to that of the initial matrix.".
Definition different_description : string :=
  "The reconstruction matrices generated by different number of principal components are different.".

Section Pipeline.

Context {C : Collaborators}.

(** [__init__]: the matrix is standardized, the other arguments are stored
    as they are given. *)
Definition init (raw : matrix) (contamination : float64) (kernel : string)
    (gamma : option Q) (random_state : Z) : KPCA_Recon_Error :=
  {| self_matrix := StandardScaler_fit_transform raw;
     contamination := contamination;
     kernel := kernel;
     gamma := gamma;
     random_state := random_state |}.

Variable self : KPCA_Recon_Error.

(** The eigenvalues of the fit with [n_components=None]. *)
Definition full_lambdas : vector :=
  let '(transformer, _) :=
    KernelPCA_fit_transform None (kernel self) (gamma self)
      (random_state self) (self_matrix self) in
  lambdas_ transformer.

Definition get_ev_ratio : vector :=
  let total := np_sum full_lambdas in
  map (fun x => x / total) (np_cumsum full_lambdas).

(** The matrix rebuilt from the top [recon_pc_num] components, before its
    shape is checked. *)
Definition recon_of (recon_pc_num : nat) : matrix :=
  let '(transformer, X_transformed) :=
    KernelPCA_fit_transform (Some recon_pc_num) (kernel self) (gamma self)
      (random_state self) (self_matrix self) in
  inverse_transform transformer X_transformed.

Definition reconstruct (recon_pc_num : nat) : result matrix :=
  let recon_matrix := recon_of recon_pc_num in
  if shape_eqb (shape recon_matrix) (shape (self_matrix self))
  then inr recon_matrix
  else inl (AssertionError shape_description).

(** The list the sweep builds when no assertion stops it. *)
Definition recon_list : list matrix :=
  map recon_of (seq 1 (ncols (self_matrix self))).

Definition reconstruct_matrix : M (list matrix) :=
  let col := ncols (self_matrix self) in
  recon_matrices <- lift (mapM reconstruct (seq 1 col)) ;;
  ij <- np_random_choice2 col ;;
  let '(i, j) := ij in
  if meqb (nth i recon_matrices []) (nth j recon_matrices [])
  then raise (AssertionError different_description)
  else ret recon_matrices.

Definition compute_vector_length (v : vector) : Q :=
  let square_sum := np_sum (np_square v) in
  np_sqrt square_sum.

Definition compute_sub_score (recon_matrix : matrix) (ev : Q) : vector :=
  let delta_matrix := msub (self_matrix self) recon_matrix in
  vscale (map compute_vector_length delta_matrix) ev.

(** The last two lines of [get_anomaly_score], for given weights and
    reconstruction matrices. *)
Definition summarize (reconstruct_matrices : list matrix) (ev_ratio : vector)
  : vector :=
  let anomaly_scores := map2 compute_sub_score reconstruct_matrices ev_ratio in
  np_sum_axis0 anomaly_scores.

Definition get_anomaly_score : M vector :=
  let ev_ratio := get_ev_ratio in
  reconstruct_matrices <- reconstruct_matrix ;;
  ret (summarize reconstruct_matrices ev_ratio).

(** [int(np.ceil(len(self.matrix) * self.contamination))]: the product and
    its ceiling are floats, and [int] raises on an infinity and on NaN. *)
Definition anomaly_num : result Z :=
  int_of_float
    (np_ceil (fmul (float_of_nat (nrows (self_matrix self)))
                   (contamination self))).

Definition get_anomaly_indices : M (list nat) :=
  scores <- get_anomaly_score ;;
  let indices_desc := np_argsort (vneg scores) in
  num <- lift anomaly_num ;;
  let anomaly_indices := slice_to indices_desc num in
  ret anomaly_indices.

Definition predict : M (list nat) :=
  anomaly_indices <- get_anomaly_indices ;;
  let pred :=
    map (fun i => if index_in i anomaly_indices then 1%nat else 0%nat)
        (seq 0 (nrows (self_matrix self))) in
  ret pred.

End Pipeline.

(** [get_ev_ratio] in float64: the cumulative sums, the total and the
    quotients are rounded as NumPy rounds them.  The eigenvalues are the
    floats that the decomposition returns. *)
Definition get_ev_ratio64 {C : Collaborators} {F : FloatSum}
    (self : KPCA_Recon_Error) : vector :=
  let total := np_sum64 (full_lambdas self) in
  map (fun x => fdiv x total) (np_cumsum64 (full_lambdas self)).

(** ** The quantities the specification speaks of *)

(** The sum of a list of numbers. *)
Definition sumQ (xs : list Q) : Q := fold_right Qplus 0 xs.

Section Specification.

Context {C : Collaborators}.
Variable self : KPCA_Recon_Error.

(** The reconstruction error of row [i] with [k] components: the Euclidean
    norm of row [i] of (the standardized matrix minus the reconstruction
    from [k] components). *)
Definition row_error (k i : nat) : Q :=
  compute_vector_length
    (vsub (nth i (self_matrix self) []) (nth i (recon_of self k) [])).

(** The cumulative explained-variance ratio at [k]: (sum of the top [k]
    eigenvalues) / (sum of all eigenvalues). *)
Definition cumulative_ratio (k : nat) : Q :=
  sumQ (firstn k (full_lambdas self)) / sumQ (full_lambdas self).

(** The sum over the component counts [1..m] of the reconstruction error
    of row [i] weighted by the cumulative ratio. *)
Definition weighted_error_sum (m i : nat) : Q :=
  sumQ (map (fun k => row_error k i * cumulative_ratio k) (seq 1 m)).

(** The anomaly score of row [i] as the specification defines it: the sum
    runs over all component counts [1..d]. *)
Definition specified_score (i : nat) : Q :=
  weighted_error_sum (ncols (self_matrix self)) i.

End Specification.

(** [idx] runs through scores that do not increase. *)
Definition descending (scores : vector) (idx : list nat) : Prop :=
  StronglySorted (fun i j => nth j scores 0 <= nth i scores 0) idx.

(** ** Instances of the collaborators

    Executable stand-ins for the library routines, used to run the pipeline
    on concrete data. *)

(** A square root on rationals: [sqrt (p/q) = sqrt (p*q) / q], with the
    integer square root taken after scaling by [sqrt_scale].  It is exact on
    the squares of rationals. *)
Definition sqrt_scale : Z := 1000.

Definition sqrtQ (x : Q) : Q :=
  let r := Qred x in
  let p := Qnum r in
  let q := Zpos (Qden r) in
  Qred (Qmake (Z.sqrt (p * q * sqrt_scale * sqrt_scale))
              (Z.to_pos (q * sqrt_scale))).

(** A standardizer: every column is shifted to mean zero and divided by its
    population standard deviation (by 1 when the column is constant). *)
Definition column (m : matrix) (j : nat) : vector := map (fun r => nth j r 0) m.

Definition mean (v : vector) : Q :=
  np_sum v / inject_Z (Z.of_nat (List.length v)).

Definition scale_of (v : vector) : Q :=
  let s := sqrtQ (mean (np_square (map (fun x => x - mean v) v))) in
  if Qeq_bool s 0 then 1 else s.

Definition standardize (m : matrix) : matrix :=
  map (fun r =>
         map2 (fun x j => Qred ((x - mean (column m j)) / scale_of (column m j)))
              r (seq 0 (List.length r)))
      m.

(** A decomposition whose components are the leading coordinate axes.  It
    keeps from scikit-learn's [KernelPCA] what the class can observe of the
    number of components: the kernel matrix of [n] rows is [n] by [n], so a
    fit keeps [min(n, n_components)] components, and all [n] with
    [n_components = None], where the eigenvalues that are not positive are
    then removed.  The embedding keeps the leading coordinates of a row,
    the inverse mapping fills the other coordinates with zeros, and the
    eigenvalues are the leading entries of [spectrum]. *)
Record axis_transformer : Type := {
  axis_lambdas : vector;
  axis_width : nat
}.

Definition positive (x : Q) : bool := negb (Qle_bool x 0).

Definition axis_fit_transform (spectrum : vector)
    (n_components : option nat) (_ : string) (_ : option Q) (_ : Z)
    (X : matrix) : axis_transformer * matrix :=
  let k := match n_components with
           | None => nrows X
           | Some c => Nat.min (nrows X) c
           end in
  let kept := match n_components with
              | None => filter positive (firstn k spectrum)
              | Some _ => firstn k spectrum
              end in
  ({| axis_lambdas := kept; axis_width := ncols X |}, map (firstn k) X).

Definition axis_inverse_transform (t : axis_transformer) (Xt : matrix) : matrix :=
  map (fun r => r ++ repeat 0 (axis_width t - List.length r)) Xt.

(** Two sorts of the positions of a vector by insertion.  [insert_pos]
    puts a position in front of the first one that [before] does not let
    pass. *)
Fixpoint insert_pos (before : nat -> nat -> bool) (i : nat) (idx : list nat)
  : list nat :=
  match idx with
  | [] => [i]
  | j :: idx' =>
      if before i j then i :: j :: idx' else j :: insert_pos before i idx'
  end.

Definition argsort_by (before : vector -> nat -> nat -> bool) (v : vector)
  : list nat :=
  fold_right (insert_pos (before v)) [] (seq 0 (List.length v)).

(** Stable: among equal values the lower position comes first. *)
Definition le_at (v : vector) (i j : nat) : bool :=
  Qle_bool (nth i v 0) (nth j v 0).
Definition argsort_stable : vector -> list nat := argsort_by le_at.


(** Not stable: among equal values the higher position comes first. *)
Definition lt_at (v : vector) (i j : nat) : bool :=
  negb (Qle_bool (nth j v 0) (nth i v 0)).
Definition argsort_reversing : vector -> list nat := argsort_by lt_at.

Definition axis_collaborators (spectrum : vector)
    (argsort : vector -> list nat) : Collaborators :=
  {| StandardScaler_fit_transform := standardize;
     transformer := axis_transformer;
     KernelPCA_fit_transform := axis_fit_transform spectrum;
     lambdas_ := axis_lambdas;
     inverse_transform := axis_inverse_transform;
     np_sqrt := sqrtQ;
     np_argsort := argsort |}.

(** The default arguments of the constructor. *)
Definition default_kernel : string := "rbf".
Definition default_random_state : Z := 2018.

(** Four rows of two features, with three positive eigenvalues. *)
Definition rows42 : matrix :=
  [ [ 7;  1];
    [-7;  7];
    [ 1; -7];
    [-1; -1] ].
Definition spectrum42 : vector := [4; 2; 1; 0].

(** Two rows of three features: the kernel matrix is 2 by 2 and, once
    centred, has one positive eigenvalue. *)
Definition rows23 : matrix :=
  [ [1; 5; 2];
    [3; 1; 8] ].
Definition spectrum23 : vector := [4; 0].

(** One feature. *)
Definition rows31 : matrix := [ [1]; [2]; [4] ].

Definition stable42 : Collaborators :=
  axis_collaborators spectrum42 argsort_stable.
Definition reversing42 : Collaborators :=
  axis_collaborators spectrum42 argsort_reversing.
Definition stable23 : Collaborators :=
  axis_collaborators spectrum23 argsort_stable.


(** Detectors on these data, built by the constructor; the contamination is
    written as a decimal literal. *)
Definition detector42 (contamination : Q) : KPCA_Recon_Error :=
  init (C := stable42) rows42 (float_literal contamination) default_kernel None
       default_random_state.
Definition detector23 : KPCA_Recon_Error :=
  init (C := stable23) rows23 (float_literal (1 # 2)) default_kernel None
       default_random_state.
Definition detector31 : KPCA_Recon_Error :=
  init (C := stable23) rows31 (float_literal (1 # 100)) default_kernel None
       default_random_state.

(** A sum of floats from left to right, which is how [np.sum] adds fewer
    than eight numbers. *)
Definition sequential_sum : FloatSum :=
  {| np_sum64 := fun v =>
       match v with
       | [] => 0
       | x :: v' => fold_left fadd v' x
       end |}.

(** * Properties *)

(** Splits a conjunction into its parts, leaving the equalities to be
    computed. *)
Ltac split_all := repeat match goal with |- _ /\ _ => split end.

(** ** The sample drawn from the generator *)

Lemma np_random_choice2_small (col : nat) (g : RandomState) :
  (col < 2)%nat ->
  np_random_choice2 col g = (inl (ValueError sample_too_large), g).
Proof.
  intros H. unfold np_random_choice2.
  destruct (Nat.ltb_spec col 2) as [_ | Hge]; [reflexivity | lia].
Qed.

Lemma np_random_choice2_draws (col : nat) (g : RandomState) :
  (2 <= col)%nat ->
  exists i j, np_random_choice2 col g = (inr (i, j), S g)
              /\ (i < col)%nat /\ (j < col)%nat /\ i <> j.
Proof.
  intros H. unfold np_random_choice2.
  destruct (Nat.ltb_spec col 2) as [Hlt | _]; [lia |].
  eexists; eexists; split; [reflexivity |].
  assert (Hi : (g mod col < col)%nat) by (apply Nat.mod_upper_bound; lia).
  assert (Hr : ((g / col) mod (col - 1) < col - 1)%nat)
    by (apply Nat.mod_upper_bound; lia).
  set (i := (g mod col)%nat) in *.
  set (r := ((g / col) mod (col - 1))%nat) in *.
  repeat split.
  - exact Hi.
  - apply Nat.mod_upper_bound; lia.
  - intros Heq.
    destruct (Nat.lt_ge_cases (i + 1 + r) col) as [Hlt | Hge].
    + rewrite Nat.mod_small in Heq by exact Hlt. lia.
    + assert (Hm : ((i + 1 + r) mod col = i + 1 + r - col)%nat).
      { symmetry. apply Nat.mod_unique with (q := 1%nat); lia. }
      rewrite Hm in Heq. lia.
Qed.

(** Every ordered pair of distinct indices is the sample of some state. *)
Lemma np_random_choice2_complete (col i j : nat) :
  (i < col)%nat -> (j < col)%nat -> i <> j ->
  exists g, fst (np_random_choice2 col g) = inr (i, j).
Proof.
  intros Hi Hj Hij.
  set (r := ((j + col - i - 1) mod col)%nat).
  assert (Hr : (r < col - 1)%nat).
  { unfold r. destruct (Nat.lt_ge_cases i j) as [Hlt | Hge].
    - replace (j + col - i - 1)%nat with ((j - i - 1) + 1 * col)%nat by lia.
      rewrite Nat.Div0.mod_add, Nat.mod_small; lia.
    - rewrite Nat.mod_small; lia. }
  exists (i + col * r)%nat. unfold np_random_choice2.
  destruct (Nat.ltb_spec col 2) as [Hlt | _]; [lia |]. cbn [fst].
  assert (Hmod : ((i + col * r) mod col = i)%nat).
  { rewrite (Nat.mul_comm col r), Nat.Div0.mod_add. apply Nat.mod_small; lia. }
  assert (Hdiv : ((i + col * r) / col = r)%nat).
  { rewrite (Nat.mul_comm col r), Nat.div_add by lia.
    rewrite Nat.div_small; lia. }
  rewrite Hmod, Hdiv, (Nat.mod_small r) by lia.
  f_equal. f_equal.
  unfold r. destruct (Nat.lt_ge_cases i j) as [Hlt | Hge].
  - replace (j + col - i - 1)%nat with ((j - i - 1) + 1 * col)%nat by lia.
    rewrite Nat.Div0.mod_add, (Nat.mod_small (j - i - 1)) by lia.
    rewrite Nat.mod_small; lia.
  - rewrite (Nat.mod_small (j + col - i - 1)) by lia.
    replace (i + 1 + (j + col - i - 1))%nat with (j + 1 * col)%nat by lia.
    rewrite Nat.Div0.mod_add. apply Nat.mod_small; lia.
Qed.

(** ** Lists *)

Lemma mapM_inr {A B} (f : A -> result B) (xs : list A) (ys : list B) :
  mapM f xs = inr ys -> Forall2 (fun x y => f x = inr y) xs ys.
Proof.
  revert ys. induction xs as [| x xs IH]; intros ys H; cbn in H.
  - injection H as <-. constructor.
  - destruct (f x) as [e | y] eqn:Hx; [discriminate |].
    destruct (mapM f xs) as [e | ys'] eqn:Hxs; [discriminate |].
    injection H as <-. constructor; [exact Hx | apply IH; reflexivity].
Qed.

Lemma mapM_all_inr {A B} (f : A -> result B) (g : A -> B) (xs : list A) :
  (forall x, In x xs -> f x = inr (g x)) -> mapM f xs = inr (map g xs).
Proof.
  induction xs as [| x xs IH]; intros H; cbn.
  - reflexivity.
  - rewrite (H x) by (left; reflexivity).
    rewrite IH by (intros y Hy; apply H; right; exact Hy). reflexivity.
Qed.

Lemma mapM_first_inl {A B} (f : A -> result B) (e : exn) (xs : list A) :
  (forall x, In x xs -> f x = inl e \/ exists y, f x = inr y) ->
  (exists x, In x xs /\ f x = inl e) ->
  mapM f xs = inl e.
Proof.
  induction xs as [| x xs IH]; intros Hall [x0 [Hin Hx0]].
  - destruct Hin.
  - cbn. destruct (Hall x (or_introl eq_refl)) as [Hx | [y Hx]]; rewrite Hx.
    + reflexivity.
    + rewrite IH; [reflexivity | |].
      * intros z Hz. apply Hall. right. exact Hz.
      * destruct Hin as [-> | Hin]; [congruence |]. exists x0. split; assumption.
Qed.

Lemma map2_length {A B D} (f : A -> B -> D) (xs : list A) (ys : list B) :
  List.length (map2 f xs ys) = Nat.min (List.length xs) (List.length ys).
Proof.
  revert ys. induction xs as [| x xs IH]; intros [| y ys]; cbn; auto.
Qed.



Lemma map2_nth {A B D} (f : A -> B -> D) (xs : list A) (ys : list B)
    (k : nat) (a : A) (b : B) (d : D) :
  (k < List.length xs)%nat -> (k < List.length ys)%nat ->
  nth k (map2 f xs ys) d = f (nth k xs a) (nth k ys b).
Proof.
  revert ys k. induction xs as [| x xs IH]; intros [| y ys] [| k] Hx Hy;
    cbn in *; try lia; auto.
  apply IH; lia.
Qed.

Lemma shape_eqb_eq (s t : nat * nat) : shape_eqb s t = true <-> s = t.
Proof.
  destruct s as [a b], t as [c d]. unfold shape_eqb. cbn.
  rewrite andb_true_iff, !Nat.eqb_eq. split.
  - intros [-> ->]. reflexivity.
  - intros H. injection H as -> ->. split; reflexivity.
Qed.

(** ** The reconstruction sweep *)

Section Sweep.

Context {C : Collaborators}.
Variable self : KPCA_Recon_Error.

Let X := self_matrix self.
Let d := ncols (self_matrix self).

Lemma reconstruct_inr (k : nat) (m : matrix) :
  reconstruct self k = inr m <->
  m = recon_of self k /\ shape (recon_of self k) = shape X.
Proof.
  unfold reconstruct.
  destruct (shape_eqb (shape (recon_of self k)) (shape (self_matrix self)))
    eqn:Hs.
  - apply shape_eqb_eq in Hs. split.
    + intros H. injection H as <-. split; [reflexivity | exact Hs].
    + intros [-> _]. reflexivity.
  - split; [discriminate |]. intros [_ H].
    apply shape_eqb_eq in H. unfold X in H. congruence.
Qed.

Lemma reconstruct_cases (k : nat) :
  reconstruct self k = inl (AssertionError shape_description)
  \/ exists m, reconstruct self k = inr m.
Proof.
  unfold reconstruct.
  destruct (shape_eqb _ _); [right; eexists; reflexivity | left; reflexivity].
Qed.

Lemma recon_list_length : List.length (recon_list self) = d.
Proof. unfold recon_list. fold d. rewrite length_map, length_seq. reflexivity. Qed.

Lemma recon_list_nth (k : nat) :
  (1 <= k <= d)%nat -> nth (k - 1) (recon_list self) [] = recon_of self k.
Proof.
  intros Hk. unfold recon_list. fold d.
  rewrite (nth_indep _ [] (recon_of self 0)) by (rewrite length_map, length_seq; lia).
  rewrite map_nth, seq_nth by lia. f_equal. lia.
Qed.

Lemma sweep_inr (ms : list matrix) :
  mapM (reconstruct self) (seq 1 d) = inr ms <->
  ms = (recon_list self)
  /\ forall k, (1 <= k <= d)%nat -> shape (recon_of self k) = shape X.
Proof.
  split.
  - intros H. apply mapM_inr in H.
    assert (Hgen : forall (ks : list nat) (ms : list matrix),
               Forall2 (fun k m => reconstruct self k = inr m) ks ms ->
               ms = map (recon_of self) ks
               /\ forall k, In k ks -> shape (recon_of self k) = shape X).
    { induction 1 as [| k m ks ms' Hk _ [IH1 IH2]].
      - split; [reflexivity | intros k []].
      - apply reconstruct_inr in Hk. destruct Hk as [-> Hk]. split.
        + cbn. f_equal. exact IH1.
        + intros k' [<- | Hin]; [exact Hk | apply IH2; exact Hin]. }
    destruct (Hgen _ _ H) as [-> Hs]. split; [reflexivity |].
    intros k Hk. apply Hs. apply in_seq. lia.
  - intros [-> Hs]. apply mapM_all_inr. intros k Hk. apply in_seq in Hk.
    apply reconstruct_inr. split; [reflexivity | apply Hs; lia].
Qed.

Lemma sweep_inl :
  (exists k, (1 <= k <= d)%nat /\ shape (recon_of self k) <> shape X) ->
  mapM (reconstruct self) (seq 1 d) = inl (AssertionError shape_description).
Proof.
  intros [k [Hk Hs]]. apply mapM_first_inl.
  - intros x _. apply reconstruct_cases.
  - exists k. split; [apply in_seq; lia |].
    destruct (reconstruct_cases k) as [H | [m H]]; [exact H |].
    apply reconstruct_inr in H. destruct H as [_ H]. contradiction.
Qed.

(** What a call of [reconstruct_matrix] that returns has gone through. *)
Lemma reconstruct_matrix_inr (g g' : RandomState) (ms : list matrix) :
  reconstruct_matrix self g = (inr ms, g') <->
  ms = (recon_list self)
  /\ (forall k, (1 <= k <= d)%nat -> shape (recon_of self k) = shape X)
  /\ exists i j, np_random_choice2 d g = (inr (i, j), g')
                 /\ meqb (nth i (recon_list self) []) (nth j (recon_list self) []) = false.
Proof.
  unfold reconstruct_matrix, bind, lift. fold d. split.
  - destruct (mapM (reconstruct self) (seq 1 d)) as [e | ms'] eqn:Hsweep;
      [discriminate |].
    apply sweep_inr in Hsweep. destruct Hsweep as [-> Hs].
    destruct (np_random_choice2 d g) as [[e | [i j]] g1] eqn:Hdraw;
      [discriminate |].
    destruct (meqb (nth i (recon_list self) []) (nth j (recon_list self) [])) eqn:Heq;
      unfold raise, ret; [discriminate |].
    intros H. injection H as <- <-.
    split; [reflexivity |]. split; [exact Hs |].
    exists i, j. split; [reflexivity | exact Heq].
  - intros [-> [Hs [i [j [Hdraw Heq]]]]].
    assert (Hsweep : mapM (reconstruct self) (seq 1 d) = inr (recon_list self))
      by (apply sweep_inr; split; [reflexivity | exact Hs]).
    rewrite Hsweep, Hdraw, Heq. reflexivity.
Qed.

(** The outcome of the spot check when every shape is right. *)
Lemma reconstruct_matrix_spot_check (g : RandomState) (i j : nat) :
  (forall k, (1 <= k <= d)%nat -> shape (recon_of self k) = shape X) ->
  fst (np_random_choice2 d g) = inr (i, j) ->
  fst (reconstruct_matrix self g) =
  if meqb (nth i (recon_list self) []) (nth j (recon_list self) [])
  then inl (AssertionError different_description)
  else inr (recon_list self).
Proof.
  intros Hs Hdraw.
  assert (Hsweep : mapM (reconstruct self) (seq 1 d) = inr (recon_list self))
    by (apply sweep_inr; split; [reflexivity | exact Hs]).
  unfold reconstruct_matrix, bind, lift. fold d. rewrite Hsweep.
  destruct (np_random_choice2 d g) as [[e | [i' j']] g1]; cbn in Hdraw;
    [discriminate |].
  injection Hdraw as -> ->.
  destruct (meqb _ _); reflexivity.
Qed.

Lemma reconstruct_matrix_shape_mismatch (g : RandomState) :
  (exists k, (1 <= k <= d)%nat /\ shape (recon_of self k) <> shape X) ->
  reconstruct_matrix self g = (inl (AssertionError shape_description), g).
Proof.
  intros H. unfold reconstruct_matrix, bind, lift. fold d.
  rewrite (sweep_inl H). reflexivity.
Qed.

(** A call of [get_anomaly_score], [get_anomaly_indices] or [predict] that
    returns has returned from [reconstruct_matrix] first. *)
Lemma get_anomaly_score_inr (g g' : RandomState) (scores : vector) :
  get_anomaly_score self g = (inr scores, g') <->
  reconstruct_matrix self g = (inr (recon_list self), g')
  /\ scores = summarize self (recon_list self) (get_ev_ratio self).
Proof.
  unfold get_anomaly_score, bind, ret. split.
  - destruct (reconstruct_matrix self g) as [[e | ms] g1] eqn:Hr; [discriminate |].
    intros H. injection H as <- <-.
    pose proof (proj1 (reconstruct_matrix_inr _ _ _) Hr) as [-> _].
    split; reflexivity.
  - intros [-> ->]. reflexivity.
Qed.


Lemma get_anomaly_indices_inr (g g' : RandomState) (idx : list nat) :
  get_anomaly_indices self g = (inr idx, g') <->
  exists scores num,
    get_anomaly_score self g = (inr scores, g')
    /\ anomaly_num self = inr num
    /\ idx = slice_to (np_argsort (vneg scores)) num.
Proof.
  unfold get_anomaly_indices, bind, lift, ret. split.
  - destruct (get_anomaly_score self g) as [[e | scores] g1]; [discriminate |].
    destruct (anomaly_num self) as [e | num]; [discriminate |].
    intros H. injection H as <- <-. exists scores, num. repeat split.
  - intros [scores [num [-> [-> ->]]]]. reflexivity.
Qed.

(** [get_anomaly_indices] raises what [get_anomaly_score] raises, or, once
    the scores are there, what the conversion of the number of rows to flag
    raises. *)
Lemma get_anomaly_indices_inl (g g' : RandomState) (e : exn) :
  get_anomaly_indices self g = (inl e, g') <->
  get_anomaly_score self g = (inl e, g')
  \/ (exists scores, get_anomaly_score self g = (inr scores, g'))
     /\ anomaly_num self = inl e.
Proof.
  unfold get_anomaly_indices, bind, lift, ret.
  destruct (get_anomaly_score self g) as [[e' | scores] g1].
  - split.
    + intros H. injection H as -> ->. left. reflexivity.
    + intros [H | [[scores H] _]]; [| discriminate].
      injection H as -> ->. reflexivity.
  - destruct (anomaly_num self) as [e' | num].
    + split.
      * intros H. injection H as -> ->. right.
        split; [exists scores; reflexivity | reflexivity].
      * intros [H | [[scores' H] He]]; [discriminate |].
        injection H as _ ->. injection He as ->. reflexivity.
    + split.
      * intros H. discriminate.
      * intros [H | [_ H]]; discriminate.
Qed.

Lemma predict_inr (g g' : RandomState) (pred : list nat) :
  predict self g = (inr pred, g') <->
  exists idx,
    get_anomaly_indices self g = (inr idx, g')
    /\ pred = map (fun i => if index_in i idx then 1%nat else 0%nat)
                  (seq 0 (nrows X)).
Proof.
  unfold predict, bind, ret. split.
  - destruct (get_anomaly_indices self g) as [[e | idx] g1]; [discriminate |].
    intros H. injection H as <- <-. exists idx. split; reflexivity.
  - intros [idx [-> ->]]. reflexivity.
Qed.

Lemma predict_inl (g g' : RandomState) (e : exn) :
  predict self g = (inl e, g') <-> get_anomaly_indices self g = (inl e, g').
Proof.
  unfold predict, bind, ret.
  destruct (get_anomaly_indices self g) as [[e' | ms] g1]; split; intros H;
    try discriminate; injection H as -> ->; reflexivity.
Qed.

End Sweep.

Section SweepClaims.

Context {C : Collaborators}.
Variable self : KPCA_Recon_Error.

Let X := self_matrix self.
Let d := ncols (self_matrix self).

(** Claim C6, amended.  With at least two features, a call of
    [reconstruct_matrix] ends in one of three ways.  When the shape of some
    reconstruction differs from the shape of the standardized matrix, it
    raises the shape assertion.  When all shapes agree, two distinct
    positions are sampled, and the call raises the assertion of the spot
    check if the two sampled reconstructions are identical, and otherwise
    returns the list of all reconstructions.  Whatever it returns has
    exactly [d] matrices, the one at position [k - 1] is the reconstruction
    from [k] components, and each has the shape of the standardized
    matrix. *)
Theorem reconstruct_matrix_sweep (g : RandomState) :
  (2 <= d)%nat ->
  ((exists k, (1 <= k <= d)%nat /\ shape (recon_of self k) <> shape X) ->
   reconstruct_matrix self g = (inl (AssertionError shape_description), g))
  /\ ((forall k, (1 <= k <= d)%nat -> shape (recon_of self k) = shape X) ->
      exists i j,
        np_random_choice2 d g = (inr (i, j), S g)
        /\ reconstruct_matrix self g =
           (if meqb (recon_of self (S i)) (recon_of self (S j))
            then inl (AssertionError different_description)
            else inr (recon_list self), S g))
  /\ (forall ms g',
        reconstruct_matrix self g = (inr ms, g') ->
        List.length ms = d
        /\ forall k, (1 <= k <= d)%nat ->
                     nth (k - 1) ms [] = recon_of self k
                     /\ shape (nth (k - 1) ms []) = shape X).
Proof.
  intros Hd. split; [| split].
  - apply reconstruct_matrix_shape_mismatch.
  - intros Hs.
    destruct (np_random_choice2_draws d g Hd) as [i [j [Hdraw [Hi [Hj _]]]]].
    exists i, j. split; [exact Hdraw |].
    assert (Hsweep : mapM (reconstruct self) (seq 1 d) = inr (recon_list self))
      by (apply sweep_inr; split; [reflexivity | exact Hs]).
    rewrite <- (recon_list_nth self (S i)), <- (recon_list_nth self (S j))
      by (fold d; lia).
    replace (S i - 1)%nat with i by lia. replace (S j - 1)%nat with j by lia.
    unfold reconstruct_matrix, bind, lift. fold d. rewrite Hsweep, Hdraw.
    destruct (meqb _ _); reflexivity.
  - intros ms g' H. apply reconstruct_matrix_inr in H.
    destruct H as [-> [Hs _]]. split; [apply recon_list_length |].
    intros k Hk. rewrite recon_list_nth by exact Hk.
    split; [reflexivity | apply Hs; exact Hk].
Qed.

(** Claim C7, on the code.  With exactly one feature [reconstruct_matrix]
    never returns: the single reconstruction is built, and then the sample
    of two positions out of one raises [ValueError] (unless the shape
    assertion has already failed). *)
Theorem reconstruct_matrix_one_feature (g : RandomState) :
  d = 1%nat ->
  (exists e, reconstruct_matrix self g = (inl e, g))
  /\ (shape (recon_of self 1) = shape X ->
      reconstruct_matrix self g = (inl (ValueError sample_too_large), g)).
Proof.
  intros Hd.
  assert (Hok : shape (recon_of self 1) = shape X ->
                reconstruct_matrix self g = (inl (ValueError sample_too_large), g)).
  { intros Hs.
    assert (Hsweep : mapM (reconstruct self) (seq 1 d) = inr (recon_list self)).
    { apply sweep_inr. split; [reflexivity |]. fold d. intros k Hk.
      replace k with 1%nat by lia. exact Hs. }
    unfold reconstruct_matrix, bind, lift. fold d. rewrite Hsweep.
    rewrite np_random_choice2_small by lia. reflexivity. }
  split; [| exact Hok].
  destruct (shape_eqb (shape (recon_of self 1)) (shape X)) eqn:Hs.
  - apply shape_eqb_eq in Hs. eexists. apply Hok. exact Hs.
  - eexists. apply reconstruct_matrix_shape_mismatch. exists 1%nat.
    split; [fold d; lia |]. intros H. apply shape_eqb_eq in H.
    fold X in H. congruence.
Qed.

(** Claim C8, amended.  Two runs of one configuration that both return,
    from whatever states of the global generator, return the same scores
    and the same predictions. *)
Theorem completed_runs_agree (g1 g2 : RandomState) (s1 s2 : vector)
    (p1 p2 : list nat) :
  fst (get_anomaly_score self g1) = inr s1 ->
  fst (get_anomaly_score self g2) = inr s2 ->
  fst (predict self g1) = inr p1 ->
  fst (predict self g2) = inr p2 ->
  s1 = s2 /\ p1 = p2.
Proof.
  intros H1 H2 H3 H4.
  assert (Hscore : forall g s, fst (get_anomaly_score self g) = inr s ->
             s = summarize self (recon_list self) (get_ev_ratio self)).
  { intros g s H. destruct (get_anomaly_score self g) as [r g'] eqn:Hg.
    cbn in H. subst r. apply get_anomaly_score_inr in Hg. apply Hg. }
  assert (Hpred : forall g p, fst (predict self g) = inr p ->
             exists num,
               anomaly_num self = inr num
               /\ p = map (fun i =>
                             if index_in i
                                  (slice_to
                                     (np_argsort
                                        (vneg (summarize self (recon_list self)
                                                 (get_ev_ratio self))))
                                     num)
                             then 1%nat else 0%nat)
                          (seq 0 (nrows (self_matrix self)))).
  { intros g p H. destruct (predict self g) as [r g'] eqn:Hg.
    cbn in H. subst r. apply predict_inr in Hg.
    destruct Hg as [idx [Hidx ->]]. apply get_anomaly_indices_inr in Hidx.
    destruct Hidx as [scores [num [Hsc [Hnum ->]]]].
    apply get_anomaly_score_inr in Hsc.
    destruct Hsc as [_ ->]. exists num. split; [exact Hnum | reflexivity]. }
  split.
  - rewrite (Hscore _ _ H1), (Hscore _ _ H2). reflexivity.
  - destruct (Hpred _ _ H3) as [num1 [Hn1 ->]].
    destruct (Hpred _ _ H4) as [num2 [Hn2 ->]].
    rewrite Hn1 in Hn2. injection Hn2 as ->. reflexivity.
Qed.


End SweepClaims.

(** ** Sums of rationals *)

Lemma fold_left_Qplus_acc (v : vector) (a : Q) :
  fold_left Qplus v a == a + sumQ v.
Proof.
  revert a. induction v as [| x v IH]; intros a; cbn [fold_left sumQ fold_right].
  - ring.
  - rewrite IH. fold (sumQ v). ring.
Qed.

Lemma np_sum_sumQ (v : vector) : np_sum v == sumQ v.
Proof. unfold np_sum. rewrite fold_left_Qplus_acc. ring. Qed.

Lemma sumQ_ext {A} (f h : A -> Q) (xs : list A) :
  (forall x, In x xs -> f x == h x) -> sumQ (map f xs) == sumQ (map h xs).
Proof.
  induction xs as [| x xs IH]; intros H; cbn [map sumQ fold_right].
  - reflexivity.
  - rewrite (H x) by (left; reflexivity). fold (sumQ (map f xs)).
    fold (sumQ (map h xs)).
    rewrite IH by (intros y Hy; apply H; right; exact Hy). reflexivity.
Qed.

Lemma sumQ_nonneg (v : vector) : (forall x, In x v -> 0 <= x) -> 0 <= sumQ v.
Proof.
  induction v as [| x v IH]; intros H; cbn [sumQ fold_right].
  - apply Qle_refl.
  - fold (sumQ v). apply Qle_trans with (0 + 0); [discriminate |].
    apply Qplus_le_compat.
    + apply H. left. reflexivity.
    + apply IH. intros y Hy. apply H. right. exact Hy.
Qed.

Lemma sumQ_firstn_succ (v : vector) (k : nat) :
  (k < List.length v)%nat ->
  sumQ (firstn (S k) v) == sumQ (firstn k v) + nth k v 0.
Proof.
  revert k. induction v as [| x v IH]; intros k Hk; cbn in Hk; [lia |].
  destruct k as [| k].
  - cbn [firstn sumQ fold_right nth]. ring.
  - change (firstn (S (S k)) (x :: v)) with (x :: firstn (S k) v).
    change (firstn (S k) (x :: v)) with (x :: firstn k v).
    cbn [sumQ fold_right nth]. fold (sumQ (firstn (S k) v)).
    fold (sumQ (firstn k v)). rewrite IH by lia. ring.
Qed.

Lemma sumQ_firstn_mono (v : vector) (i j : nat) :
  (forall x, In x v -> 0 <= x) -> (i <= j)%nat ->
  sumQ (firstn i v) <= sumQ (firstn j v).
Proof.
  intros Hpos Hij. induction Hij as [| j Hij IH].
  - apply Qle_refl.
  - destruct (Nat.lt_ge_cases j (List.length v)) as [Hlt | Hge].
    + rewrite sumQ_firstn_succ by exact Hlt.
      apply Qle_trans with (sumQ (firstn j v) + 0).
      * rewrite Qplus_0_r. exact IH.
      * apply Qplus_le_compat; [apply Qle_refl |].
        apply Hpos. apply nth_In. exact Hlt.
    + rewrite (firstn_all2 (n := S j)) by lia.
      rewrite (firstn_all2 (n := j)) in IH by lia. exact IH.
Qed.

(** ** [np.cumsum] and the explained-variance ratios *)

Lemma cumsum_from_length (v : vector) (a : Q) :
  List.length (cumsum_from a v) = List.length v.
Proof.
  revert a. induction v as [| x v IH]; intros a; cbn; [| rewrite IH]; reflexivity.
Qed.

Lemma cumsum_from_nth (v : vector) (a : Q) (k : nat) :
  (k < List.length v)%nat ->
  nth k (cumsum_from a v) 0 == a + sumQ (firstn (S k) v).
Proof.
  revert a k. induction v as [| x v IH]; intros a k Hk; cbn in Hk; [lia |].
  destruct k as [| k].
  - cbn [cumsum_from nth firstn sumQ fold_right]. ring.
  - change (nth (S k) (cumsum_from a (x :: v)) 0)
      with (nth k (cumsum_from (a + x) v) 0).
    rewrite IH by lia.
    change (firstn (S (S k)) (x :: v)) with (x :: firstn (S k) v).
    cbn [sumQ fold_right]. fold (sumQ (firstn (S k) v)). ring.
Qed.

Section Ratios.

Context {C : Collaborators}.
Variable self : KPCA_Recon_Error.

Lemma get_ev_ratio_length :
  List.length (get_ev_ratio self) = List.length (full_lambdas self).
Proof.
  unfold get_ev_ratio, np_cumsum. rewrite length_map. apply cumsum_from_length.
Qed.

Lemma get_ev_ratio_nth (k : nat) :
  (k < List.length (full_lambdas self))%nat ->
  nth k (get_ev_ratio self) 0 == cumulative_ratio self (S k).
Proof.
  intros Hk. unfold get_ev_ratio, cumulative_ratio, np_cumsum.
  rewrite (nth_indep _ 0 ((fun x => x / np_sum (full_lambdas self)) 0))
    by (rewrite length_map, cumsum_from_length; exact Hk).
  rewrite (map_nth (fun x => x / np_sum (full_lambdas self))).
  rewrite cumsum_from_nth by exact Hk. rewrite np_sum_sumQ.
  rewrite Qplus_0_l. reflexivity.
Qed.

End Ratios.

Lemma last_as_nth {A} (l : list A) (a : A) :
  last l a = nth (List.length l - 1) l a.
Proof.
  induction l as [| x l IH]; [reflexivity |].
  destruct l as [| y l]; [reflexivity |].
  change (last (x :: y :: l) a) with (last (y :: l) a). rewrite IH.
  cbn [List.length]. replace (S (S (List.length l)) - 1)%nat
    with (S (S (List.length l) - 1)) by lia. reflexivity.
Qed.

(** ** The scores *)

Lemma vadd_nth (v w : vector) (i : nat) :
  (i < List.length v)%nat -> (i < List.length w)%nat ->
  nth i (vadd v w) 0 = nth i v 0 + nth i w 0.
Proof. intros Hv Hw. unfold vadd. apply map2_nth; assumption. Qed.

Lemma fold_left_vadd (n : nat) (vs : list vector) (v : vector) :
  List.length v = n ->
  (forall w, In w vs -> List.length w = n) ->
  List.length (fold_left vadd vs v) = n
  /\ forall i, (i < n)%nat ->
       nth i (fold_left vadd vs v) 0 ==
       nth i v 0 + sumQ (map (fun w => nth i w 0) vs).
Proof.
  revert v. induction vs as [| w vs IH]; intros v Hv Hvs.
  - split; [exact Hv |]. intros i _. cbn [fold_left map sumQ fold_right]. ring.
  - assert (Hw : List.length w = n) by (apply Hvs; left; reflexivity).
    assert (Hvw : List.length (vadd v w) = n)
      by (unfold vadd; rewrite map2_length; lia).
    destruct (IH (vadd v w) Hvw) as [Hlen Hnth].
    { intros u Hu. apply Hvs. right. exact Hu. }
    split; [exact Hlen |]. intros i Hi.
    cbn [fold_left map sumQ fold_right]. rewrite Hnth by exact Hi.
    rewrite vadd_nth by lia. fold (sumQ (map (fun w0 => nth i w0 0) vs)). ring.
Qed.

Lemma np_sum_axis0_rows (n : nat) (vs : list vector) :
  vs <> [] ->
  (forall w, In w vs -> List.length w = n) ->
  List.length (np_sum_axis0 vs) = n
  /\ forall i, (i < n)%nat ->
       nth i (np_sum_axis0 vs) 0 == sumQ (map (fun w => nth i w 0) vs).
Proof.
  intros Hne Hvs. destruct vs as [| v vs]; [contradiction |].
  cbn [np_sum_axis0].
  destruct (fold_left_vadd n vs v) as [Hlen Hnth].
  - apply Hvs. left. reflexivity.
  - intros w Hw. apply Hvs. right. exact Hw.
  - split; [exact Hlen |]. intros i Hi. rewrite Hnth by exact Hi.
    cbn [map sumQ fold_right]. reflexivity.
Qed.

Lemma map_as_seq {A B} (f : A -> B) (l : list A) (a : A) :
  map f l = map (fun k => f (nth k l a)) (seq 0 (List.length l)).
Proof.
  induction l as [| x l IH]; [reflexivity |].
  cbn [List.length seq map nth]. f_equal.
  rewrite <- seq_shift, map_map. exact IH.
Qed.

Section Scores.

Context {C : Collaborators}.
Variable self : KPCA_Recon_Error.

Let X := self_matrix self.
Let d := ncols (self_matrix self).
Let n := nrows (self_matrix self).

Lemma compute_sub_score_length (R : matrix) (ev : Q) :
  nrows R = n -> List.length (compute_sub_score self R ev) = n.
Proof.
  intros HR. unfold compute_sub_score, vscale, msub.
  rewrite !length_map, map2_length. unfold n, nrows in *. lia.
Qed.

Lemma compute_sub_score_nth (R : matrix) (ev : Q) (i : nat) :
  nrows R = n -> (i < n)%nat ->
  nth i (compute_sub_score self R ev) 0 =
  compute_vector_length (vsub (nth i X []) (nth i R [])) * ev.
Proof.
  intros HR Hi. unfold compute_sub_score, vscale, msub.
  assert (Hlen : List.length (map2 vsub (self_matrix self) R) = n)
    by (rewrite map2_length; unfold n, nrows in *; lia).
  rewrite (nth_indep _ 0 ((fun x => x * ev) (compute_vector_length [])))
    by (rewrite !length_map; lia).
  rewrite (map_nth (fun x => x * ev)).
  rewrite (map_nth compute_vector_length).
  rewrite (map2_nth vsub _ _ i [] [] []) by (unfold n, nrows in *; lia).
  reflexivity.
Qed.

(** The scores of a call that returns: one per row, and the score of row
    [i] is the weighted sum of its reconstruction errors over the component
    counts that have both a reconstruction and a ratio. *)
Lemma get_anomaly_score_rows (g g' : RandomState) (scores : vector) :
  get_anomaly_score self g = (inr scores, g') ->
  (1 <= List.length (full_lambdas self))%nat ->
  List.length scores = n
  /\ forall i, (i < n)%nat ->
       nth i scores 0 ==
       weighted_error_sum self (Nat.min d (List.length (full_lambdas self))) i.
Proof.
  intros Hrun Hne.
  apply get_anomaly_score_inr in Hrun. destruct Hrun as [Hrec ->].
  apply reconstruct_matrix_inr in Hrec.
  destruct Hrec as [_ [Hshape [i0 [j0 [Hdraw _]]]]].
  assert (Hd : (2 <= d)%nat).
  { destruct (Nat.lt_ge_cases d 2) as [Hlt | Hge]; [| exact Hge].
    fold d in Hdraw. rewrite (np_random_choice2_small d g Hlt) in Hdraw.
    discriminate. }
  set (m := Nat.min d (List.length (full_lambdas self))).
  set (subs := map2 (compute_sub_score self) (recon_list self) (get_ev_ratio self)).
  assert (Hsubs : List.length subs = m).
  { unfold subs. rewrite map2_length, recon_list_length, get_ev_ratio_length.
    reflexivity. }
  assert (Hk : forall k, (k < m)%nat ->
             nth k subs [] =
             compute_sub_score self (recon_of self (S k))
               (nth k (get_ev_ratio self) 0)
             /\ nrows (recon_of self (S k)) = n).
  { intros k Hkm. unfold subs.
    rewrite (map2_nth (compute_sub_score self) _ _ k [] 0 [])
      by (rewrite ?recon_list_length, ?get_ev_ratio_length; fold d; lia).
    replace k with (S k - 1)%nat at 1 by lia.
    rewrite recon_list_nth by (fold d; lia).
    split; [reflexivity |].
    assert (Hs : shape (recon_of self (S k)) = shape (self_matrix self))
      by (apply Hshape; fold d; lia).
    unfold shape in Hs. injection Hs as Hs _. exact Hs. }
  destruct (np_sum_axis0_rows n subs) as [Hlen Hnth].
  - intros Hnil. rewrite Hnil in Hsubs. cbn in Hsubs. lia.
  - intros w Hw. destruct (In_nth _ _ [] Hw) as [k [Hkm Heq]].
    assert (Hkm' : (k < m)%nat) by (rewrite <- Hsubs; exact Hkm).
    destruct (Hk k Hkm') as [Hsub HR].
    assert (Hw' : w = compute_sub_score self (recon_of self (S k))
                        (nth k (get_ev_ratio self) 0))
      by (rewrite <- Heq; exact Hsub).
    rewrite Hw'. apply compute_sub_score_length. exact HR.
  - unfold summarize. fold subs. split; [exact Hlen |].
    intros i Hi. rewrite Hnth by exact Hi.
    rewrite (map_as_seq _ subs []), Hsubs.
    unfold weighted_error_sum. fold m. rewrite <- seq_shift, map_map.
    apply sumQ_ext. intros k Hkin. apply in_seq in Hkin.
    destruct (Hk k) as [-> HR]; [lia |].
    rewrite compute_sub_score_nth by assumption.
    rewrite get_ev_ratio_nth by lia. reflexivity.
Qed.

(** When the decomposition keeps at least [d] eigenvalues, the scores are
    those of the specification. *)
Lemma get_anomaly_score_specified (g g' : RandomState) (scores : vector) :
  get_anomaly_score self g = (inr scores, g') ->
  (d <= List.length (full_lambdas self))%nat ->
  List.length scores = n
  /\ forall i, (i < n)%nat -> nth i scores 0 == specified_score self i.
Proof.
  intros Hrun Hlen.
  assert (Hd : (2 <= d)%nat).
  { apply get_anomaly_score_inr in Hrun. destruct Hrun as [Hrec _].
    apply reconstruct_matrix_inr in Hrec.
    destruct Hrec as [_ [_ [i0 [j0 [Hdraw _]]]]].
    destruct (Nat.lt_ge_cases d 2) as [Hlt | Hge]; [| exact Hge].
    fold d in Hdraw. rewrite (np_random_choice2_small d g Hlt) in Hdraw.
    discriminate. }
  destruct (get_anomaly_score_rows g g' scores Hrun) as [H1 H2]; [lia |].
  split; [exact H1 |]. intros i Hi. rewrite (H2 i Hi).
  unfold specified_score. fold d. rewrite Nat.min_l by exact Hlen. reflexivity.
Qed.

End Scores.

(** ** Sorting positions by insertion *)

Section Insertion.

Variable before : nat -> nat -> bool.

Lemma insert_pos_perm (i : nat) (idx : list nat) :
  Permutation (insert_pos before i idx) (i :: idx).
Proof.
  induction idx as [| j idx IH]; cbn.
  - apply Permutation_refl.
  - destruct (before i j).
    + apply Permutation_refl.
    + apply Permutation_trans with (j :: i :: idx).
      * apply perm_skip. exact IH.
      * apply perm_swap.
Qed.

Lemma fold_insert_perm (l : list nat) :
  Permutation (fold_right (insert_pos before) [] l) l.
Proof.
  induction l as [| i l IH]; cbn.
  - apply perm_nil.
  - apply Permutation_trans with (i :: fold_right (insert_pos before) [] l).
    + apply insert_pos_perm.
    + apply perm_skip. exact IH.
Qed.

Variable R : nat -> nat -> Prop.
Hypothesis R_trans : forall i j k, R i j -> R j k -> R i k.
Hypothesis before_true : forall i j, before i j = true -> R i j.
Hypothesis before_false : forall i j, before i j = false -> R j i.

Lemma insert_pos_sorted (i : nat) (idx : list nat) :
  StronglySorted R idx -> StronglySorted R (insert_pos before i idx).
Proof.
  induction idx as [| j idx IH]; intros Hs; cbn.
  - constructor; constructor.
  - apply StronglySorted_inv in Hs. destruct Hs as [Hs Hj].
    destruct (before i j) eqn:Hb.
    + constructor.
      * constructor; assumption.
      * constructor; [apply before_true; exact Hb |].
        apply Forall_forall. intros k Hk.
        apply R_trans with j; [apply before_true; exact Hb |].
        rewrite Forall_forall in Hj. apply Hj. exact Hk.
    + constructor; [apply IH; exact Hs |].
      apply Forall_forall. intros k Hk.
      apply (Permutation_in _ (insert_pos_perm i idx)) in Hk.
      destruct Hk as [<- | Hk].
      * apply before_false. exact Hb.
      * rewrite Forall_forall in Hj. apply Hj. exact Hk.
Qed.

Lemma fold_insert_sorted (l : list nat) :
  StronglySorted R (fold_right (insert_pos before) [] l).
Proof.
  induction l as [| i l IH]; cbn.
  - constructor.
  - apply insert_pos_sorted. exact IH.
Qed.

End Insertion.

Lemma argsort_stable_perm (v : vector) :
  Permutation (argsort_stable v) (seq 0 (List.length v)).
Proof. apply fold_insert_perm. Qed.

Lemma argsort_stable_ascending (v : vector) : ascending v (argsort_stable v).
Proof.
  apply fold_insert_sorted.
  - intros i j k. apply Qle_trans.
  - intros i j H. apply Qle_bool_iff. exact H.
  - intros i j H. unfold le_at in H.
    destruct (Qlt_le_dec (nth j v 0) (nth i v 0)) as [Hlt | Hle].
    + apply Qlt_le_weak. exact Hlt.
    + apply Qle_bool_iff in Hle. congruence.
Qed.

Lemma argsort_reversing_perm (v : vector) :
  Permutation (argsort_reversing v) (seq 0 (List.length v)).
Proof. apply fold_insert_perm. Qed.

Lemma argsort_reversing_ascending (v : vector) :
  ascending v (argsort_reversing v).
Proof.
  apply fold_insert_sorted.
  - intros i j k. apply Qle_trans.
  - intros i j H. unfold lt_at in H. apply negb_true_iff in H.
    destruct (Qlt_le_dec (nth i v 0) (nth j v 0)) as [Hlt | Hle].
    + apply Qlt_le_weak. exact Hlt.
    + apply Qle_bool_iff in Hle. congruence.
  - intros i j H. unfold lt_at in H. apply negb_false_iff in H.
    apply Qle_bool_iff. exact H.
Qed.

(** Both sorts meet what is documented of [np.argsort]. *)
Lemma axis_stable_contract (spectrum : vector) :
  ArgsortContract (axis_collaborators spectrum argsort_stable).
Proof.
  constructor; [exact argsort_stable_perm | exact argsort_stable_ascending].
Qed.

Lemma axis_reversing_contract (spectrum : vector) :
  ArgsortContract (axis_collaborators spectrum argsort_reversing).
Proof.
  constructor; [exact argsort_reversing_perm | exact argsort_reversing_ascending].
Qed.

(** Sorting the negated scores with the stable sort is the stable
    descending sort of the scores. *)
Lemma vneg_nth (v : vector) (i : nat) : nth i (vneg v) 0 = - nth i v 0.
Proof. unfold vneg. apply (map_nth Qopp v 0 i). Qed.



Lemma ascending_vneg (scores : vector) (idx : list nat) :
  ascending (vneg scores) idx -> descending scores idx.
Proof.
  unfold ascending, descending. induction 1 as [| i idx Hs IH Hi].
  - constructor.
  - constructor; [exact IH |].
    rewrite Forall_forall in Hi |- *. intros j Hj. specialize (Hi j Hj).
    rewrite !vneg_nth in Hi. apply Qopp_le_compat in Hi.
    rewrite !Qopp_involutive in Hi. exact Hi.
Qed.

(** ** Counting the flagged rows *)

Lemma index_in_iff (i : nat) (idx : list nat) :
  index_in i idx = true <-> In i idx.
Proof.
  unfold index_in. rewrite existsb_exists. split.
  - intros [j [Hj Heq]]. apply Nat.eqb_eq in Heq. subst j. exact Hj.
  - intros H. exists i. split; [exact H | apply Nat.eqb_refl].
Qed.

Lemma count_flags (idx l : list nat) :
  let flags := map (fun i => if index_in i idx then 1%nat else 0%nat) l in
  count_occ Nat.eq_dec flags 1%nat =
  List.length (filter (fun i => index_in i idx) l)
  /\ (count_occ Nat.eq_dec flags 1 + count_occ Nat.eq_dec flags 0
      = List.length l)%nat.
Proof.
  induction l as [| i l [IH1 IH0]]; [split; reflexivity |].
  cbn [map filter]. destruct (index_in i idx).
  - rewrite count_occ_cons_eq by reflexivity.
    rewrite count_occ_cons_neq by discriminate.
    cbn [List.length]. split; lia.
  - rewrite count_occ_cons_neq by discriminate.
    rewrite count_occ_cons_eq by reflexivity.
    cbn [List.length]. split; lia.
Qed.

Lemma flagged_count (idx : list nat) (n : nat) :
  NoDup idx -> (forall i, In i idx -> (i < n)%nat) ->
  List.length (filter (fun i => index_in i idx) (seq 0 n)) = List.length idx.
Proof.
  intros Hnd Hlt. apply Permutation_length. apply NoDup_Permutation.
  - apply NoDup_filter. apply seq_NoDup.
  - exact Hnd.
  - intros i. rewrite filter_In, index_in_iff, in_seq. split.
    + intros [_ H]. exact H.
    + intros H. split; [specialize (Hlt i H); lia | exact H].
Qed.

Lemma firstn_NoDup {A} (k : nat) (l : list A) : NoDup l -> NoDup (firstn k l).
Proof.
  intros H. rewrite <- (firstn_skipn k l) in H.
  apply NoDup_app_remove_r in H. exact H.
Qed.

Lemma firstn_In {A} (k : nat) (l : list A) (x : A) :
  In x (firstn k l) -> In x l.
Proof.
  intros H. rewrite <- (firstn_skipn k l). apply in_or_app. left. exact H.
Qed.

Lemma slice_to_nonneg {A} (l : list A) (stop : Z) :
  (0 <= stop)%Z -> slice_to l stop = firstn (Z.to_nat stop) l.
Proof.
  intros H. unfold slice_to.
  destruct (Z.leb_spec 0 stop) as [_ | Hlt]; [reflexivity | lia].
Qed.

Lemma slice_to_In {A} (l : list A) (stop : Z) (x : A) :
  In x (slice_to l stop) -> In x l.
Proof. unfold slice_to. destruct (0 <=? stop)%Z; apply firstn_In. Qed.

Lemma slice_to_NoDup {A} (l : list A) (stop : Z) :
  NoDup l -> NoDup (slice_to l stop).
Proof. unfold slice_to. destruct (0 <=? stop)%Z; apply firstn_NoDup. Qed.


(** ** Rounding to float64 *)

(** Powers of two. *)
Lemma pow2_pos (e : Z) : 0 < pow2 e.
Proof. apply Qpower_0_lt. reflexivity. Qed.

Lemma pow2_add (a b : Z) : pow2 (a + b) == pow2 a * pow2 b.
Proof. apply Qpower_plus. discriminate. Qed.

Lemma pow2_le (a b : Z) : (a <= b)%Z -> pow2 a <= pow2 b.
Proof. intros H. apply Qpower_le_compat_l; [exact H | discriminate]. Qed.

Lemma pow2_lt (a b : Z) : (a < b)%Z -> pow2 a < pow2 b.
Proof. intros H. apply Qpower_lt_compat_l; [exact H | reflexivity]. Qed.

Lemma pow2_lt_inv (a b : Z) : pow2 a < pow2 b -> (a < b)%Z.
Proof. intros H. apply (Qpower_lt_compat_l_inv 2); [exact H | reflexivity]. Qed.

Lemma pow2_int (e : Z) : (0 <= e)%Z -> pow2 e == inject_Z (2 ^ e).
Proof. intros H. unfold pow2. rewrite Zpower_Qpower by exact H. reflexivity. Qed.

Lemma pow2_succ (e : Z) : pow2 (e + 1) == 2 * pow2 e.
Proof. rewrite pow2_add. change (pow2 1) with 2. ring. Qed.

(** The floor of the binary logarithm *)
Lemma log2_floor_spec (x : Q) :
  0 < x -> pow2 (log2_floor x) <= x /\ x < pow2 (log2_floor x + 1).
Proof.
  intros Hx. destruct x as [p q]. unfold log2_floor. cbn [Qnum Qden].
  assert (Hp : (0 < p)%Z).
  { unfold Qlt in Hx. cbn in Hx. lia. }
  set (a := Z.log2 p). set (b := Z.log2 (Zpos q)).
  destruct (Z.log2_spec p Hp) as [Ha1 Ha2]. fold a in Ha1, Ha2.
  destruct (Z.log2_spec (Zpos q) (Pos2Z.is_pos q)) as [Hb1 Hb2].
  fold b in Hb1, Hb2.
  assert (Ha0 : (0 <= a)%Z) by apply Z.log2_nonneg.
  assert (Hb0 : (0 <= b)%Z) by apply Z.log2_nonneg.
  assert (HP1 : pow2 a <= inject_Z p)
    by (rewrite pow2_int by lia; rewrite <- Zle_Qle; exact Ha1).
  assert (HP2 : inject_Z p < pow2 (a + 1)).
  { rewrite pow2_int by lia. rewrite <- Zlt_Qlt.
    replace (a + 1)%Z with (Z.succ a) by lia. exact Ha2. }
  assert (HQ1 : pow2 b <= inject_Z (Zpos q))
    by (rewrite pow2_int by lia; rewrite <- Zle_Qle; exact Hb1).
  assert (HQ2 : inject_Z (Zpos q) < pow2 (b + 1)).
  { rewrite pow2_int by lia. rewrite <- Zlt_Qlt.
    replace (b + 1)%Z with (Z.succ b) by lia. exact Hb2. }
  assert (HQ0 : 0 < inject_Z (Zpos q)) by reflexivity.
  assert (Hx' : p # q == inject_Z p / inject_Z (Zpos q)) by apply Qmake_Qdiv.
  assert (Hlow : pow2 (a - b - 1) <= p # q).
  { rewrite Hx'. apply Qle_shift_div_l; [exact HQ0 |].
    apply Qle_trans with (pow2 (a - b - 1) * pow2 (b + 1)).
    - rewrite !(Qmult_comm (pow2 (a - b - 1))).
      apply Qmult_le_compat_r; [apply Qlt_le_weak; exact HQ2 |].
      apply Qlt_le_weak. apply pow2_pos.
    - rewrite <- pow2_add. replace (a - b - 1 + (b + 1))%Z with a by lia.
      exact HP1. }
  assert (Hhigh : p # q < pow2 (a - b + 1)).
  { rewrite Hx'. apply Qlt_shift_div_r; [exact HQ0 |].
    apply Qlt_le_trans with (pow2 (a + 1)); [exact HP2 |].
    apply Qle_trans with (pow2 (a - b + 1) * pow2 b).
    - rewrite <- pow2_add. replace (a - b + 1 + b)%Z with (a + 1)%Z by lia.
      apply Qle_refl.
    - rewrite !(Qmult_comm (pow2 (a - b + 1))).
      apply Qmult_le_compat_r; [exact HQ1 |].
      apply Qlt_le_weak. apply pow2_pos. }
  destruct (Qle_bool (pow2 (a - b)) (p # q)) eqn:Hc.
  - apply Qle_bool_iff in Hc. split; [exact Hc | exact Hhigh].
  - split; [exact Hlow |].
    replace (a - b - 1 + 1)%Z with (a - b)%Z by lia.
    apply Qnot_le_lt. intros H. apply Qle_bool_iff in H. congruence.
Qed.

Lemma log2_floor_unique (x : Q) (e : Z) :
  pow2 e <= x -> x < pow2 (e + 1) -> log2_floor x = e.
Proof.
  intros H1 H2.
  assert (Hx : 0 < x) by (apply Qlt_le_trans with (pow2 e); [apply pow2_pos | exact H1]).
  destruct (log2_floor_spec x Hx) as [H3 H4].
  assert (Ha : (e < log2_floor x + 1)%Z)
    by (apply pow2_lt_inv; apply Qle_lt_trans with x; assumption).
  assert (Hb : (log2_floor x < e + 1)%Z)
    by (apply pow2_lt_inv; apply Qle_lt_trans with x; assumption).
  lia.
Qed.

Lemma log2_floor_mono (x y : Q) :
  0 < x -> x <= y -> (log2_floor x <= log2_floor y)%Z.
Proof.
  intros Hx Hxy.
  assert (Hy : 0 < y) by (apply Qlt_le_trans with x; assumption).
  destruct (log2_floor_spec x Hx) as [H1 _].
  destruct (log2_floor_spec y Hy) as [_ H2].
  assert (H : (log2_floor x < log2_floor y + 1)%Z).
  { apply pow2_lt_inv. apply Qle_lt_trans with x; [exact H1 |].
    apply Qle_lt_trans with y; assumption. }
  lia.
Qed.

Lemma log2_floor_comp (x y : Q) : 0 < x -> x == y -> log2_floor x = log2_floor y.
Proof.
  intros Hx Hxy. symmetry.
  destruct (log2_floor_spec x Hx) as [H1 H2].
  apply log2_floor_unique; rewrite <- Hxy; assumption.
Qed.

(** Rounding to the nearest integer, ties to even *)
Lemma round_half_even_comp (m m' : Q) :
  m == m' -> round_half_even m = round_half_even m'.
Proof.
  intros H. unfold round_half_even. rewrite <- (Qfloor_comp _ _ H).
  assert (Hd : m - inject_Z (Qfloor m) == m' - inject_Z (Qfloor m))
    by (apply Qplus_inj_r; exact H).
  rewrite (Qcompare_comp _ _ Hd _ _ (Qeq_refl (1 # 2))). reflexivity.
Qed.

Lemma round_half_even_bounds (m : Q) :
  (Qfloor m <= round_half_even m <= Qfloor m + 1)%Z.
Proof.
  unfold round_half_even.
  destruct (Qcompare _ _); [destruct (Z.even _) |..]; lia.
Qed.

Lemma Qfloor_frac (m : Q) :
  0 <= m - inject_Z (Qfloor m) /\ m - inject_Z (Qfloor m) < 1.
Proof.
  pose proof (Qfloor_le m) as H1. pose proof (Qlt_floor m) as H2.
  rewrite inject_Z_plus in H2. change (inject_Z 1) with 1 in H2.
  split; lra.
Qed.

Lemma round_half_even_near (m : Q) :
  Qabs (inject_Z (round_half_even m) - m) <= 1 # 2.
Proof.
  destruct (Qfloor_frac m) as [H0 H1].
  set (f := Qfloor m) in *. set (r := m - inject_Z f) in *.
  assert (Hm : m == inject_Z f + r) by (unfold r; ring).
  unfold round_half_even. fold f. fold r.
  assert (Hdown : Qabs (inject_Z f - m) == r).
  { setoid_replace (inject_Z f - m) with (- r) by lra.
    rewrite Qabs_opp. apply Qabs_pos. exact H0. }
  assert (Hup : Qabs (inject_Z (f + 1) - m) == 1 - r).
  { rewrite inject_Z_plus. change (inject_Z 1) with 1.
    setoid_replace (inject_Z f + 1 - m) with (1 - r) by lra.
    apply Qabs_pos. lra. }
  destruct (Qcompare r (1 # 2)) eqn:Hc.
  - apply Qeq_alt in Hc.
    destruct (Z.even f).
    + rewrite Hdown. lra.
    + rewrite Hup. lra.
  - apply Qlt_alt in Hc. rewrite Hdown. lra.
  - apply Qgt_alt in Hc. rewrite Hup. lra.
Qed.

Lemma round_half_even_int (k : Z) : round_half_even (inject_Z k) = k.
Proof.
  unfold round_half_even. rewrite Qfloor_Z.
  assert (Hc : Qcompare (inject_Z k - inject_Z k) (1 # 2) = Lt).
  { apply Qlt_alt. setoid_replace (inject_Z k - inject_Z k) with 0 by ring.
    reflexivity. }
  rewrite Hc. reflexivity.
Qed.

Lemma round_half_even_le_int (m : Q) (k : Z) :
  m <= inject_Z k -> (round_half_even m <= k)%Z.
Proof.
  intros H. pose proof (round_half_even_bounds m) as [_ Hb].
  destruct (Z.lt_ge_cases (Qfloor m) k) as [Hlt | Hge]; [lia |].
  assert (Hf : Qfloor m = k).
  { apply Z.le_antisymm; [| exact Hge].
    rewrite <- (Qfloor_Z k). apply Qfloor_resp_le. exact H. }
  assert (Hm : m == inject_Z k).
  { apply Qle_antisym; [exact H |]. rewrite <- Hf. apply Qfloor_le. }
  rewrite (round_half_even_comp _ _ Hm), round_half_even_int. lia.
Qed.

Lemma round_half_even_ge_int (m : Q) (k : Z) :
  inject_Z k <= m -> (k <= round_half_even m)%Z.
Proof.
  intros H. pose proof (round_half_even_bounds m) as [Hb _].
  assert (Hf : (k <= Qfloor m)%Z)
    by (rewrite <- (Qfloor_Z k); apply Qfloor_resp_le; exact H).
  lia.
Qed.

Lemma round_half_even_mono (m1 m2 : Q) :
  m1 <= m2 -> (round_half_even m1 <= round_half_even m2)%Z.
Proof.
  intros H. pose proof (Qfloor_resp_le _ _ H) as Hf.
  pose proof (round_half_even_bounds m1) as [_ H1].
  pose proof (round_half_even_bounds m2) as [H2 _].
  destruct (Z.lt_ge_cases (Qfloor m1) (Qfloor m2)) as [Hlt | Hge]; [lia |].
  assert (Heq : Qfloor m1 = Qfloor m2) by lia.
  unfold round_half_even. rewrite <- Heq.
  set (f := Qfloor m1).
  destruct (Qcompare (m1 - inject_Z f) (1 # 2)) eqn:Hc1;
    destruct (Qcompare (m2 - inject_Z f) (1 # 2)) eqn:Hc2;
    try (destruct (Z.even f)); try lia;
    first [apply Qeq_alt in Hc1 | apply Qlt_alt in Hc1 | apply Qgt_alt in Hc1];
    first [apply Qeq_alt in Hc2 | apply Qlt_alt in Hc2 | apply Qgt_alt in Hc2];
    exfalso; lra.
Qed.

(** Rounding to the nearest float64 *)
Lemma round_nearest_zero (x : Q) : x == 0 -> round_nearest x = 0.
Proof.
  intros H. unfold round_nearest. apply Qeq_bool_iff in H. rewrite H. reflexivity.
Qed.

Lemma round_nearest_grid (x : Q) :
  ~ x == 0 ->
  round_nearest x ==
  inject_Z (round_half_even (x / pow2 (ulp_exponent x))) * pow2 (ulp_exponent x).
Proof.
  intros H. unfold round_nearest.
  destruct (Qeq_bool x 0) eqn:Hz; [apply Qeq_bool_iff in Hz; contradiction |].
  apply Qred_correct.
Qed.

Lemma Qabs_nonzero_pos (x : Q) : ~ x == 0 -> 0 < Qabs x.
Proof.
  intros Hx. destruct (Qlt_le_dec 0 (Qabs x)) as [Hpos | Hle]; [exact Hpos |].
  exfalso. apply Hx. apply Qabs_Qle_condition in Hle.
  destruct Hle as [H1 H2]. lra.
Qed.

Lemma ulp_exponent_comp (x y : Q) :
  ~ x == 0 -> x == y -> ulp_exponent x = ulp_exponent y.
Proof.
  intros Hx H. unfold ulp_exponent. f_equal. f_equal.
  apply log2_floor_comp; [apply Qabs_nonzero_pos; exact Hx |].
  rewrite H. reflexivity.
Qed.

Lemma round_nearest_comp (x y : Q) : x == y -> round_nearest x = round_nearest y.
Proof.
  intros H. unfold round_nearest.
  destruct (Qeq_bool x 0) eqn:Hx.
  - apply Qeq_bool_iff in Hx.
    assert (Hy : Qeq_bool y 0 = true)
      by (apply Qeq_bool_iff; rewrite <- H; exact Hx).
    rewrite Hy. reflexivity.
  - assert (Hx' : ~ x == 0)
      by (intros Hc; apply Qeq_bool_iff in Hc; congruence).
    assert (Hy : Qeq_bool y 0 = false).
    { destruct (Qeq_bool y 0) eqn:Hc; [| reflexivity].
      apply Qeq_bool_iff in Hc. exfalso. apply Hx'. rewrite H. exact Hc. }
    rewrite Hy, <- (ulp_exponent_comp x y Hx' H).
    apply Qred_complete.
    rewrite (round_half_even_comp (x / pow2 (ulp_exponent x))
                                  (y / pow2 (ulp_exponent x)))
      by (unfold Qdiv; apply Qmult_comp; [exact H | reflexivity]).
    reflexivity.
Qed.

Section PositiveRounding.

Variable x : Q.
Hypothesis x_pos : 0 < x.

Let e := log2_floor x.
Let k := ulp_exponent x.

Lemma x_nonzero : ~ x == 0.
Proof. intros H. rewrite H in x_pos. discriminate. Qed.

Lemma ulp_exponent_pos : k = Z.max (e - 52) (-1074).
Proof.
  unfold k, ulp_exponent, e.
  assert (Ha : Qabs x == x) by (apply Qabs_pos; apply Qlt_le_weak; exact x_pos).
  rewrite (log2_floor_comp (Qabs x) x); [reflexivity | | exact Ha].
  apply Qlt_le_trans with x; [exact x_pos |]. apply Qle_Qabs.
Qed.

Lemma round_nearest_le_grid (K : Z) :
  x <= inject_Z K * pow2 k -> round_nearest x <= inject_Z K * pow2 k.
Proof.
  intros H. rewrite (round_nearest_grid x x_nonzero). fold k.
  apply Qmult_le_compat_r; [| apply Qlt_le_weak; apply pow2_pos].
  rewrite <- Zle_Qle. apply round_half_even_le_int.
  apply Qle_shift_div_r; [apply pow2_pos | exact H].
Qed.

Lemma round_nearest_ge_grid (K : Z) :
  inject_Z K * pow2 k <= x -> inject_Z K * pow2 k <= round_nearest x.
Proof.
  intros H. rewrite (round_nearest_grid x x_nonzero). fold k.
  apply Qmult_le_compat_r; [| apply Qlt_le_weak; apply pow2_pos].
  rewrite <- Zle_Qle. apply round_half_even_ge_int.
  apply Qle_shift_div_l; [apply pow2_pos | exact H].
Qed.

Lemma round_nearest_pos_nonneg : 0 <= round_nearest x.
Proof.
  setoid_replace 0 with (inject_Z 0 * pow2 k) by ring.
  apply round_nearest_ge_grid.
  setoid_replace (inject_Z 0 * pow2 k) with 0 by ring.
  apply Qlt_le_weak. exact x_pos.
Qed.

(** A power of two at or above the unit in the last place is on the grid. *)
Lemma pow2_on_grid (j : Z) :
  (k <= j)%Z -> pow2 j == inject_Z (2 ^ (j - k)) * pow2 k.
Proof.
  intros H. rewrite <- pow2_int by lia. rewrite <- pow2_add.
  replace (j - k + k)%Z with j by lia. reflexivity.
Qed.

Lemma round_nearest_upper : round_nearest x <= pow2 (Z.max (e + 1) k).
Proof.
  destruct (log2_floor_spec x x_pos) as [_ Hhi]. fold e in Hhi.
  rewrite (pow2_on_grid (Z.max (e + 1) k)) by lia.
  apply round_nearest_le_grid.
  rewrite <- pow2_on_grid by lia.
  apply Qle_trans with (pow2 (e + 1)); [apply Qlt_le_weak; exact Hhi |].
  apply pow2_le. lia.
Qed.

Lemma round_nearest_lower : (k <= e)%Z -> pow2 e <= round_nearest x.
Proof.
  intros H. destruct (log2_floor_spec x x_pos) as [Hlo _]. fold e in Hlo.
  rewrite (pow2_on_grid e H). apply round_nearest_ge_grid.
  rewrite <- pow2_on_grid by exact H. exact Hlo.
Qed.

Lemma round_nearest_error : Qabs (round_nearest x - x) <= (1 # 2) * pow2 k.
Proof.
  rewrite (round_nearest_grid x x_nonzero). fold k.
  set (m := x / pow2 k).
  assert (Hd : inject_Z (round_half_even m) * pow2 k - x
               == (inject_Z (round_half_even m) - m) * pow2 k).
  { unfold m. field. intros H. pose proof (pow2_pos k) as Hp.
    rewrite H in Hp. discriminate. }
  rewrite Hd.
  rewrite Qabs_Qmult, (Qabs_pos (pow2 k)) by (apply Qlt_le_weak; apply pow2_pos).
  apply Qmult_le_compat_r; [apply round_half_even_near |].
  apply Qlt_le_weak. apply pow2_pos.
Qed.

End PositiveRounding.

Lemma round_nearest_nonneg (x : Q) : 0 <= x -> 0 <= round_nearest x.
Proof.
  intros H. destruct (Qeq_dec x 0) as [Hz | Hnz].
  - rewrite (round_nearest_zero x Hz). apply Qle_refl.
  - apply round_nearest_pos_nonneg.
    apply Qle_lteq in H. destruct H as [H | H]; [exact H |].
    exfalso. apply Hnz. symmetry. exact H.
Qed.

Lemma ulp_exponent_mono (x y : Q) :
  0 < x -> x <= y -> (ulp_exponent x <= ulp_exponent y)%Z.
Proof.
  intros Hx Hxy.
  assert (Hy : 0 < y) by (apply Qlt_le_trans with x; assumption).
  rewrite (ulp_exponent_pos x Hx), (ulp_exponent_pos y Hy).
  pose proof (log2_floor_mono x y Hx Hxy). lia.
Qed.

Lemma round_nearest_mono (x y : Q) :
  0 <= x -> x <= y -> round_nearest x <= round_nearest y.
Proof.
  intros Hx Hxy.
  assert (Hy0 : 0 <= y) by (apply Qle_trans with x; assumption).
  destruct (Qeq_dec x 0) as [Hz | Hnz].
  { rewrite (round_nearest_zero x Hz). apply round_nearest_nonneg. exact Hy0. }
  assert (Hxp : 0 < x).
  { apply Qle_lteq in Hx. destruct Hx as [H | H]; [exact H |].
    exfalso. apply Hnz. symmetry. exact H. }
  assert (Hyp : 0 < y) by (apply Qlt_le_trans with x; assumption).
  pose proof (ulp_exponent_mono x y Hxp Hxy) as Hk.
  pose proof (ulp_exponent_pos x Hxp) as Hkx.
  pose proof (ulp_exponent_pos y Hyp) as Hky.
  pose proof (log2_floor_mono x y Hxp Hxy) as He.
  destruct (Z.eq_dec (ulp_exponent x) (ulp_exponent y)) as [Heq | Hne].
  - rewrite (round_nearest_grid x Hnz), (round_nearest_grid y (x_nonzero y Hyp)).
    rewrite <- Heq.
    apply Qmult_le_compat_r; [| apply Qlt_le_weak; apply pow2_pos].
    rewrite <- Zle_Qle. apply round_half_even_mono.
    apply Qmult_le_compat_r; [exact Hxy |].
    apply Qlt_le_weak. apply Qinv_lt_0_compat. apply pow2_pos.
  - apply Qle_trans with (pow2 (log2_floor y)).
    + apply Qle_trans with (pow2 (Z.max (log2_floor x + 1) (ulp_exponent x)));
        [apply round_nearest_upper; exact Hxp |].
      apply pow2_le. lia.
    + apply round_nearest_lower; [exact Hyp | lia].
Qed.

(** What is already rounded stays below the rounding of what is above it. *)
Lemma round_nearest_ge_rounded (w z : Q) :
  0 <= w -> round_nearest w <= z -> round_nearest w <= round_nearest z.
Proof.
  intros Hw Hz.
  destruct (Qeq_dec w 0) as [Hw0 | Hnz].
  { rewrite (round_nearest_zero w Hw0) in *. apply round_nearest_nonneg. exact Hz. }
  assert (Hwp : 0 < w).
  { apply Qle_lteq in Hw. destruct Hw as [H | H]; [exact H |].
    exfalso. apply Hnz. symmetry. exact H. }
  destruct (Qeq_dec (round_nearest w) 0) as [Hr0 | Hrnz].
  { rewrite Hr0 in *. apply round_nearest_nonneg. exact Hz. }
  assert (Hrp : 0 < round_nearest w).
  { pose proof (round_nearest_pos_nonneg w Hwp) as H.
    apply Qle_lteq in H. destruct H as [H | H]; [exact H |].
    exfalso. apply Hrnz. symmetry. exact H. }
  assert (Hzp : 0 < z) by (apply Qlt_le_trans with (round_nearest w); assumption).
  pose proof (ulp_exponent_pos w Hwp) as Hkw.
  pose proof (ulp_exponent_pos z Hzp) as Hkz.
  destruct (Z.le_gt_cases (ulp_exponent z) (ulp_exponent w)) as [Hle | Hgt].
  - assert (Hgrid : round_nearest w ==
              inject_Z (round_half_even (w / pow2 (ulp_exponent w))
                        * 2 ^ (ulp_exponent w - ulp_exponent z))
              * pow2 (ulp_exponent z)).
    { apply Qeq_trans
        with (inject_Z (round_half_even (w / pow2 (ulp_exponent w)))
              * pow2 (ulp_exponent w));
        [apply round_nearest_grid; exact Hnz |].
      rewrite inject_Z_mult.
      set (R := inject_Z (round_half_even (w / pow2 (ulp_exponent w)))).
      rewrite (pow2_on_grid z (ulp_exponent w) Hle). ring. }
    rewrite Hgrid. apply round_nearest_ge_grid; [exact Hzp |].
    rewrite <- Hgrid. exact Hz.
  - apply Qle_trans with (pow2 (log2_floor z)).
    + apply Qle_trans with (pow2 (Z.max (log2_floor w + 1) (ulp_exponent w)));
        [apply round_nearest_upper; exact Hwp |].
      apply pow2_le. lia.
    + apply round_nearest_lower; [exact Hzp | lia].
Qed.

Lemma log2_floor_pow2 (j : Z) : log2_floor (pow2 j) = j.
Proof.
  apply log2_floor_unique; [apply Qle_refl | apply pow2_lt; lia].
Qed.

(** In the normal range the relative error is at most 2^-53. *)
Lemma round_nearest_relative (x : Q) :
  pow2 (-1022) <= x -> Qabs (round_nearest x - x) <= pow2 (-53) * x.
Proof.
  intros H.
  assert (Hx : 0 < x) by (apply Qlt_le_trans with (pow2 (-1022)); [apply pow2_pos | exact H]).
  pose proof (log2_floor_mono _ _ (pow2_pos (-1022)) H) as He.
  rewrite log2_floor_pow2 in He.
  pose proof (ulp_exponent_pos x Hx) as Hk.
  destruct (log2_floor_spec x Hx) as [Hlo _].
  apply Qle_trans with ((1 # 2) * pow2 (ulp_exponent x));
    [apply round_nearest_error; exact Hx |].
  replace (ulp_exponent x) with (log2_floor x - 52)%Z by lia.
  apply Qle_trans with (pow2 (-53) * pow2 (log2_floor x)).
  - replace (log2_floor x - 52)%Z with (-52 + log2_floor x)%Z by lia.
    rewrite pow2_add.
    setoid_replace ((1 # 2) * (pow2 (-52) * pow2 (log2_floor x)))
      with (((1 # 2) * pow2 (-52)) * pow2 (log2_floor x)) by ring.
    apply Qmult_le_compat_r; [| apply Qlt_le_weak; apply pow2_pos].
    vm_compute. discriminate.
  - rewrite !(Qmult_comm (pow2 (-53))).
    apply Qmult_le_compat_r; [exact Hlo | apply Qlt_le_weak; apply pow2_pos].
Qed.

(** Integers below 2^53 are float64 values. *)
Lemma round_nearest_int (z : Z) :
  (0 <= z < 2 ^ 53)%Z -> round_nearest (inject_Z z) == inject_Z z.
Proof.
  intros [Hz0 Hz].
  destruct (Z.eq_dec z 0) as [-> | Hnz]; [reflexivity |].
  assert (Hx : 0 < inject_Z z).
  { change 0 with (inject_Z 0). rewrite <- Zlt_Qlt. lia. }
  pose proof (ulp_exponent_pos _ Hx) as Hk.
  assert (He : (log2_floor (inject_Z z) <= 52)%Z).
  { destruct (log2_floor_spec _ Hx) as [Hlo _].
    assert (H : (log2_floor (inject_Z z) < 53)%Z).
    { apply pow2_lt_inv. apply Qle_lt_trans with (inject_Z z); [exact Hlo |].
      rewrite (pow2_int 53) by lia. rewrite <- Zlt_Qlt. exact Hz. }
    lia. }
  set (k := ulp_exponent (inject_Z z)) in *.
  assert (Hk0 : (k <= 0)%Z) by lia.
  assert (Hgrid : inject_Z z == inject_Z (z * 2 ^ (- k)) * pow2 k).
  { rewrite inject_Z_mult, <- pow2_int by lia.
    rewrite <- Qmult_assoc, <- pow2_add.
    replace (- k + k)%Z with 0%Z by lia. change (pow2 0) with 1. ring. }
  apply Qle_antisym.
  - rewrite Hgrid at 2. apply round_nearest_le_grid; [exact Hx |].
    fold k. rewrite <- Hgrid. apply Qle_refl.
  - rewrite Hgrid at 1. apply round_nearest_ge_grid; [exact Hx |].
    fold k. rewrite <- Hgrid. apply Qle_refl.
Qed.

(** ** Sums in float64 *)

Lemma unit_roundoff_pos : 0 < unit_roundoff.
Proof. apply pow2_pos. Qed.

Lemma round_nearest_interval (x : Q) :
  smallest_normal <= x ->
  x * (1 - unit_roundoff) <= round_nearest x
  /\ round_nearest x <= x * (1 + unit_roundoff)
  /\ smallest_normal <= round_nearest x.
Proof.
  intros H. pose proof (round_nearest_relative x H) as Hr.
  fold unit_roundoff in Hr.
  apply Qabs_Qle_condition in Hr. destruct Hr as [Ha Hb].
  assert (Hx : 0 < x)
    by (apply Qlt_le_trans with smallest_normal; [apply pow2_pos | exact H]).
  split; [lra | split; [lra |]].
  - pose proof (log2_floor_mono _ _ (pow2_pos (-1022)) H) as He.
    rewrite log2_floor_pow2 in He.
    pose proof (ulp_exponent_pos x Hx) as Hk.
    apply Qle_trans with (pow2 (log2_floor x)); [apply pow2_le; exact He |].
    apply round_nearest_lower; [exact Hx | lia].
Qed.

Lemma sumQ_app (l1 l2 : vector) : sumQ (l1 ++ l2) == sumQ l1 + sumQ l2.
Proof.
  induction l1 as [| x l1 IH]; cbn [app sumQ fold_right].
  - fold (sumQ l2). ring.
  - fold (sumQ (l1 ++ l2)). fold (sumQ l1). rewrite IH. ring.
Qed.

Lemma sumQ_perm (l l' : vector) : Permutation l l' -> sumQ l == sumQ l'.
Proof.
  induction 1 as [| x l l' _ IH | x y l | l l' l'' _ IH1 _ IH2];
    cbn [sumQ fold_right].
  - reflexivity.
  - fold (sumQ l). fold (sumQ l'). rewrite IH. reflexivity.
  - fold (sumQ l). ring.
  - rewrite IH1. exact IH2.
Qed.

Lemma sumQ_ge_each (l : vector) (c : Q) :
  0 <= c -> l <> [] -> (forall x, In x l -> c <= x) -> c <= sumQ l.
Proof.
  intros Hc Hne H. destruct l as [| x l]; [contradiction |].
  cbn [sumQ fold_right]. fold (sumQ l).
  assert (H0 : 0 <= sumQ l).
  { clear Hne. induction l as [| y l IH]; cbn [sumQ fold_right]; [lra |].
    fold (sumQ l).
    assert (c <= y) by (apply H; right; left; reflexivity).
    assert (0 <= sumQ l).
    { apply IH. intros z [<- | Hz]; apply H; [left | right; right]; auto. }
    lra. }
  assert (c <= x) by (apply H; left; reflexivity). lra.
Qed.

Lemma lengthQ_app (l1 l2 : vector) : lengthQ (l1 ++ l2) == lengthQ l1 + lengthQ l2.
Proof.
  unfold lengthQ. rewrite length_app, Nat2Z.inj_add, inject_Z_plus. reflexivity.
Qed.

Lemma lengthQ_pos (l : vector) : l <> [] -> 1 <= lengthQ l.
Proof.
  intros H. unfold lengthQ. destruct l as [| x l]; [contradiction |].
  change 1 with (inject_Z 1). rewrite <- Zle_Qle. cbn [List.length]. lia.
Qed.

Lemma RoundedSum_nonempty (l : vector) (r : Q) : RoundedSum l r -> l <> [].
Proof.
  induction 1 as [x | l1 l2 a b _ IH1 _ _ | l l' a Hp _ IH].
  - discriminate.
  - destruct l1; [contradiction | discriminate].
  - intros ->. apply Permutation_sym, Permutation_nil in Hp. contradiction.
Qed.

(** A sum of [j] positive normal numbers, added in any order with rounding,
    is within the factors [1 - (j-1)u] and [1 + 2(j-1)u] of the exact sum. *)
Lemma RoundedSum_bounds (l : vector) (r : Q) :
  RoundedSum l r ->
  (forall x, In x l -> smallest_normal <= x) ->
  2 * lengthQ l * unit_roundoff <= 1 ->
  sumQ l * (1 - (lengthQ l - 1) * unit_roundoff) <= r
  /\ r <= sumQ l * (1 + 2 * (lengthQ l - 1) * unit_roundoff)
  /\ smallest_normal <= r.
Proof.
  pose proof unit_roundoff_pos as Hu.
  assert (Hsn : 0 < smallest_normal) by apply pow2_pos.
  induction 1 as [x | l1 l2 a b H1 IH1 H2 IH2 | l l' a Hp H IH];
    intros Hall Hfew.
  - assert (Hx : smallest_normal <= x) by (apply Hall; left; reflexivity).
    unfold lengthQ. cbn [List.length sumQ fold_right].
    change (inject_Z (Z.of_nat 1)) with 1.
    repeat split; [| | exact Hx]; lra.
  - pose proof (RoundedSum_nonempty _ _ H1) as Hne1.
    pose proof (RoundedSum_nonempty _ _ H2) as Hne2.
    pose proof (lengthQ_pos l1 Hne1) as Hc1.
    pose proof (lengthQ_pos l2 Hne2) as Hc2.
    rewrite lengthQ_app in Hfew |- *. rewrite sumQ_app.
    destruct IH1 as [Ha1 [Ha2 Ha3]].
    { intros x Hx. apply Hall. apply in_or_app. left. exact Hx. }
    { nra. }
    destruct IH2 as [Hb1 [Hb2 Hb3]].
    { intros x Hx. apply Hall. apply in_or_app. right. exact Hx. }
    { nra. }
    assert (Hs1 : smallest_normal <= sumQ l1).
    { apply sumQ_ge_each; [lra | exact Hne1 |].
      intros x Hx. apply Hall. apply in_or_app. left. exact Hx. }
    assert (Hs2 : smallest_normal <= sumQ l2).
    { apply sumQ_ge_each; [lra | exact Hne2 |].
      intros x Hx. apply Hall. apply in_or_app. right. exact Hx. }
    destruct (round_nearest_interval (a + b)) as [Hr1 [Hr2 Hr3]]; [lra |].
    unfold fadd.
    set (r := round_nearest (a + b)) in *.
    set (S1 := sumQ l1) in *. set (S2 := sumQ l2) in *.
    set (J1 := lengthQ l1) in *. set (J2 := lengthQ l2) in *.
    set (u := unit_roundoff) in *.
    split; [| split; [| exact Hr3]].
    + apply Qle_trans with ((a + b) * (1 - u)); [| exact Hr1].
      apply Qle_trans
        with ((S1 * (1 - (J1 - 1) * u) + S2 * (1 - (J2 - 1) * u)) * (1 - u)).
      * assert (E1 : 0 <= S1 * ((J1 - 1) * u * u + (J2 - 1) * u))
          by (apply Qmult_le_0_compat; [lra | nra]).
        assert (E2 : 0 <= S2 * ((J2 - 1) * u * u + (J1 - 1) * u))
          by (apply Qmult_le_0_compat; [lra | nra]).
        nra.
      * apply Qmult_le_compat_r; [lra | nra].
    + apply Qle_trans with ((a + b) * (1 + u)); [exact Hr2 |].
      apply Qle_trans
        with ((S1 * (1 + 2 * (J1 - 1) * u) + S2 * (1 + 2 * (J2 - 1) * u))
              * (1 + u)).
      * apply Qmult_le_compat_r; [lra | lra].
      * assert (E1 : 0 <= S1 * (u * (2 * J2 - 1 - 2 * (J1 - 1) * u))).
        { apply Qmult_le_0_compat; [lra |].
          apply Qmult_le_0_compat; [lra | nra]. }
        assert (E2 : 0 <= S2 * (u * (2 * J1 - 1 - 2 * (J2 - 1) * u))).
        { apply Qmult_le_0_compat; [lra |].
          apply Qmult_le_0_compat; [lra | nra]. }
        nra.
  - assert (Hl : forall x, In x l -> smallest_normal <= x).
    { intros x Hx. apply Hall. apply (Permutation_in _ Hp). exact Hx. }
    assert (Hc : lengthQ l == lengthQ l').
    { unfold lengthQ. rewrite (Permutation_length Hp). reflexivity. }
    rewrite <- Hc in Hfew |- *. rewrite <- (sumQ_perm _ _ Hp).
    apply IH; assumption.
Qed.

(** ** [np.cumsum] in float64 *)

Lemma cumsum64_from_length (v : vector) (acc : Q) :
  List.length (cumsum64_from acc v) = List.length v.
Proof.
  revert acc. induction v as [| x v IH]; intros acc; cbn; [| rewrite IH]; reflexivity.
Qed.

Lemma np_cumsum64_length (v : vector) :
  List.length (np_cumsum64 v) = List.length v.
Proof.
  destruct v as [| x v]; [reflexivity |]. cbn. rewrite cumsum64_from_length.
  reflexivity.
Qed.

Lemma cumsum64_from_sum (v l : vector) (acc : Q) (k : nat) :
  RoundedSum l acc -> (k < List.length v)%nat ->
  RoundedSum (l ++ firstn (S k) v) (nth k (cumsum64_from acc v) 0).
Proof.
  revert l acc k. induction v as [| x v IH]; intros l acc k Hl Hk;
    cbn in Hk; [lia |].
  assert (Hstep : RoundedSum (l ++ [x]) (fadd acc x))
    by (apply sum_add; [exact Hl | apply sum_one]).
  destruct k as [| k].
  - cbn [firstn cumsum64_from nth]. exact Hstep.
  - change (firstn (S (S k)) (x :: v)) with (x :: firstn (S k) v).
    cbn [cumsum64_from nth].
    replace (l ++ x :: firstn (S k) v) with ((l ++ [x]) ++ firstn (S k) v)
      by (rewrite <- app_assoc; reflexivity).
    apply IH; [exact Hstep | lia].
Qed.

(** Entry [k] of the cumulative sum is the rounded sum of the first [k + 1]
    entries. *)
Lemma np_cumsum64_sum (v : vector) (k : nat) :
  (k < List.length v)%nat ->
  RoundedSum (firstn (S k) v) (nth k (np_cumsum64 v) 0).
Proof.
  intros Hk. destruct v as [| x v]; [cbn in Hk; lia |].
  destruct k as [| k].
  - cbn. apply sum_one.
  - change (firstn (S (S k)) (x :: v)) with ([x] ++ firstn (S k) v).
    cbn [np_cumsum64 nth]. apply cumsum64_from_sum; [apply sum_one |].
    cbn in Hk. lia.
Qed.

Lemma cumsum64_from_step (v : vector) (acc w : Q) (i : nat) :
  0 <= w -> acc == round_nearest w ->
  (forall x, In x v -> 0 <= x) ->
  (S i < List.length (acc :: cumsum64_from acc v))%nat ->
  nth i (acc :: cumsum64_from acc v) 0
  <= nth (S i) (acc :: cumsum64_from acc v) 0.
Proof.
  revert acc w i. induction v as [| x v IH]; intros acc w i Hw Hacc Hv Hi;
    cbn in Hi; [lia |].
  assert (Hx : 0 <= x) by (apply Hv; left; reflexivity).
  assert (Hacc0 : 0 <= acc)
    by (rewrite Hacc; apply round_nearest_nonneg; exact Hw).
  destruct i as [| i].
  - cbn [cumsum64_from nth]. unfold fadd. rewrite Hacc at 1.
    apply round_nearest_ge_rounded; [exact Hw |]. rewrite <- Hacc. lra.
  - cbn [cumsum64_from]. 
    change (nth (S i) (acc :: fadd acc x :: cumsum64_from (fadd acc x) v) 0)
      with (nth i (fadd acc x :: cumsum64_from (fadd acc x) v) 0).
    change (nth (S (S i)) (acc :: fadd acc x :: cumsum64_from (fadd acc x) v) 0)
      with (nth (S i) (fadd acc x :: cumsum64_from (fadd acc x) v) 0).
    apply (IH (fadd acc x) (acc + x)).
    + lra.
    + reflexivity.
    + intros y Hy. apply Hv. right. exact Hy.
    + cbn. rewrite cumsum64_from_length in *. lia.
Qed.

Lemma np_cumsum64_step (v : vector) (i : nat) :
  (forall x, In x v -> 0 <= x /\ round_nearest x == x) ->
  (S i < List.length v)%nat ->
  nth i (np_cumsum64 v) 0 <= nth (S i) (np_cumsum64 v) 0.
Proof.
  intros Hv Hi. destruct v as [| x v]; [cbn in Hi; lia |].
  cbn [np_cumsum64].
  destruct (Hv x (or_introl eq_refl)) as [Hx0 Hx].
  apply (cumsum64_from_step v x x i).
  - exact Hx0.
  - symmetry. exact Hx.
  - intros y Hy. apply Hv. right. exact Hy.
  - cbn. rewrite cumsum64_from_length. cbn in Hi. lia.
Qed.

Lemma steps_nondecreasing (l : vector) :
  (forall i, (S i < List.length l)%nat -> nth i l 0 <= nth (S i) l 0) ->
  forall i j, (i <= j < List.length l)%nat -> nth i l 0 <= nth j l 0.
Proof.
  intros Hstep i j [Hij Hj]. induction Hij as [| j Hij IH].
  - apply Qle_refl.
  - apply Qle_trans with (nth j l 0); [apply IH; lia | apply Hstep; exact Hj].
Qed.

(** ** The quotient of two rounded sums *)

Lemma sumQ_firstn_le_total (l : vector) (k : nat) :
  (forall x, In x l -> 0 <= x) -> sumQ (firstn k l) <= sumQ l.
Proof.
  intros Hl. rewrite <- (firstn_skipn k l) at 2. rewrite sumQ_app.
  assert (H0 : 0 <= sumQ (skipn k l)).
  { assert (Hs : forall x, In x (skipn k l) -> 0 <= x).
    { intros x Hx. apply Hl. rewrite <- (firstn_skipn k l). apply in_or_app.
      right. exact Hx. }
    induction (skipn k l) as [| y t IH]; [cbn; lra |].
    cbn [sumQ fold_right]. fold (sumQ t).
    assert (0 <= y) by (apply Hs; left; reflexivity).
    assert (0 <= sumQ t) by (apply IH; intros x Hx; apply Hs; right; exact Hx).
    lra. }
  lra.
Qed.

Lemma Qmult_le_compat_l0 (x y z : Q) : x <= y -> 0 <= z -> z * x <= z * y.
Proof.
  intros Hxy Hz. rewrite (Qmult_comm z x), (Qmult_comm z y).
  apply Qmult_le_compat_r; assumption.
Qed.

Lemma quotient_upper (Sk S Ck T a u : Q) :
  0 <= Sk -> 0 < S -> 0 < T -> 0 <= a -> 0 <= u -> 4 * a + 6 * u <= 1 ->
  Ck <= Sk * (1 + 2 * a) -> S * (1 - a) <= T ->
  Ck / T * (1 + u) <= Sk / S * (1 + 4 * (a + u)).
Proof.
  intros HSk HS HT Ha Hu Hsmall HCk HTl.
  assert (Ha1 : 0 < 1 - a) by lra.
  assert (Hq : Ck / T <= Sk / S * ((1 + 2 * a) / (1 - a))).
  { apply Qle_shift_div_r; [exact HT |].
    apply Qle_trans with (Sk * (1 + 2 * a)); [exact HCk |].
    assert (E : Sk * (1 + 2 * a)
                == Sk / S * ((1 + 2 * a) / (1 - a)) * (S * (1 - a)))
      by (field; split; lra).
    rewrite E at 1. apply Qmult_le_compat_l0; [exact HTl |].
    apply Qmult_le_0_compat.
    - apply Qle_shift_div_l; [exact HS | lra].
    - apply Qle_shift_div_l; [exact Ha1 | lra]. }
  assert (Hr : 0 <= Sk / S) by (apply Qle_shift_div_l; [exact HS | lra]).
  assert (Hf : (1 + 2 * a) / (1 - a) * (1 + u) <= 1 + 4 * (a + u)).
  { assert (E : (1 + 2 * a) / (1 - a) * (1 + u)
                == ((1 + 2 * a) * (1 + u)) / (1 - a)) by (field; lra).
    rewrite E. apply Qle_shift_div_r; [exact Ha1 |].
    assert (E1 : 0 <= a * (1 - 4 * a - 6 * u))
      by (apply Qmult_le_0_compat; lra).
    nra. }
  apply Qle_trans with (Sk / S * ((1 + 2 * a) / (1 - a)) * (1 + u)).
  - apply Qmult_le_compat_r; [exact Hq | lra].
  - rewrite <- Qmult_assoc. apply Qmult_le_compat_l0; [exact Hf | exact Hr].
Qed.

Lemma quotient_lower (Sk S Ck T a u : Q) :
  0 <= Sk -> 0 < S -> 0 < T -> 0 <= a -> 0 <= u -> 4 * a + 6 * u <= 1 ->
  Sk * (1 - a) <= Ck -> T <= S * (1 + 2 * a) ->
  Sk / S * (1 - 4 * (a + u)) <= Ck / T * (1 - u)
  /\ Sk / S * (1 # 2) <= Ck / T.
Proof.
  intros HSk HS HT Ha Hu Hsmall HCk HTu.
  assert (Ha1 : 0 < 1 + 2 * a) by lra.
  assert (Hr : 0 <= Sk / S) by (apply Qle_shift_div_l; [exact HS | lra]).
  assert (Hq : Sk / S * ((1 - a) / (1 + 2 * a)) <= Ck / T).
  { apply Qle_shift_div_l; [exact HT |].
    apply Qle_trans with (Sk * (1 - a)); [| exact HCk].
    assert (E : Sk * (1 - a)
                == Sk / S * ((1 - a) / (1 + 2 * a)) * (S * (1 + 2 * a)))
      by (field; split; lra).
    rewrite E. apply Qmult_le_compat_l0; [exact HTu |].
    apply Qmult_le_0_compat; [exact Hr |].
    apply Qle_shift_div_l; [exact Ha1 | lra]. }
  split.
  - assert (Hf : 1 - 4 * (a + u) <= (1 - a) / (1 + 2 * a) * (1 - u)).
    { assert (E : (1 - a) / (1 + 2 * a) * (1 - u)
                  == ((1 - a) * (1 - u)) / (1 + 2 * a)) by (field; lra).
      rewrite E. apply Qle_shift_div_l; [exact Ha1 |].
      assert (E1 : 0 <= a * (8 * a + 7 * u)) by (apply Qmult_le_0_compat; lra).
      nra. }
    apply Qle_trans with (Sk / S * ((1 - a) / (1 + 2 * a)) * (1 - u)).
    + rewrite <- Qmult_assoc. apply Qmult_le_compat_l0; [exact Hf | exact Hr].
    + apply Qmult_le_compat_r; [exact Hq | lra].
  - apply Qle_trans with (Sk / S * ((1 - a) / (1 + 2 * a))); [| exact Hq].
    apply Qmult_le_compat_l0; [| exact Hr].
    apply Qle_shift_div_l; [exact Ha1 | lra].
Qed.

Lemma lengthQ_firstn (l : vector) (k : nat) : lengthQ (firstn k l) <= lengthQ l.
Proof.
  unfold lengthQ. rewrite <- Zle_Qle. apply Nat2Z.inj_le. rewrite length_firstn. lia.
Qed.

Lemma sumQ_pos (l : vector) :
  l <> [] -> (forall x, In x l -> smallest_normal <= x) -> 0 < sumQ l.
Proof.
  intros Hne Hl.
  assert (H0 : 0 < smallest_normal) by apply pow2_pos.
  assert (Hs : smallest_normal <= sumQ l)
    by (apply sumQ_ge_each; [lra | exact Hne | exact Hl]).
  lra.
Qed.

Section RatioOfRoundedSums.
Variable l : vector.
Variable T : Q.
Hypothesis total_rounded : RoundedSum l T.
Hypothesis normal : forall x, In x l -> smallest_normal <= x.
Hypothesis few : 8 * lengthQ l * unit_roundoff <= 1.

Let a : Q := (lengthQ l - 1) * unit_roundoff.

Lemma l_nonempty : l <> [].
Proof. apply (RoundedSum_nonempty _ _ total_rounded). Qed.

Lemma a_bounds : 0 <= a /\ 4 * a + 6 * unit_roundoff <= 1.
Proof.
  assert (Hu := unit_roundoff_pos).
  assert (Hc : 1 <= lengthQ l) by (apply lengthQ_pos; exact l_nonempty).
  unfold a. split.
  - apply Qmult_le_0_compat; lra.
  - nra.
Qed.

Lemma nonneg_entries : forall x, In x l -> 0 <= x.
Proof.
  intros x Hx. apply Qle_trans with smallest_normal; [| apply normal; exact Hx].
  apply Qlt_le_weak. apply pow2_pos.
Qed.

Lemma total_bounds :
  0 < sumQ l /\ sumQ l * (1 - a) <= T /\ T <= sumQ l * (1 + 2 * a) /\ 0 < T.
Proof.
  assert (Hu := unit_roundoff_pos).
  assert (HS : 0 < sumQ l) by (apply sumQ_pos; [exact l_nonempty | exact normal]).
  destruct (RoundedSum_bounds l T total_rounded normal) as (Hlo & Hhi & Hn);
    [lra |].
  assert (0 < smallest_normal) by apply pow2_pos.
  unfold a. repeat split; try assumption.
  - nra.
  - lra.
Qed.

Variable k : nat.
Hypothesis k_index : (k < List.length l)%nat.

Let Sk : Q := sumQ (firstn (S k) l).
Let Ck : Q := nth k (np_cumsum64 l) 0.

Lemma prefix_bounds :
  0 < Sk /\ Sk * (1 - a) <= Ck /\ Ck <= Sk * (1 + 2 * a) /\ 0 < Ck.
Proof.
  assert (Hu := unit_roundoff_pos).
  assert (Hin : forall x, In x (firstn (S k) l) -> smallest_normal <= x)
    by (intros x Hx; apply normal; apply (firstn_In _ _ _ Hx)).
  assert (Hne : firstn (S k) l <> [])
    by (destruct l; [cbn in k_index; lia | discriminate]).
  assert (HS : 0 < Sk) by (apply sumQ_pos; assumption).
  assert (Hc := lengthQ_firstn l (S k)).
  assert (Hc1 : 1 <= lengthQ (firstn (S k) l)) by (apply lengthQ_pos; exact Hne).
  destruct (RoundedSum_bounds _ _ (np_cumsum64_sum l k k_index) Hin)
    as (Hlo & Hhi & Hn); [nra |].
  fold Sk Ck in Hlo, Hhi, Hn.
  assert (0 < smallest_normal) by apply pow2_pos.
  assert (Hd : 0 <= Sk * ((lengthQ l - lengthQ (firstn (S k) l)) * unit_roundoff))
    by (apply Qmult_le_0_compat; [lra | apply Qmult_le_0_compat; lra]).
  unfold a. repeat split; try assumption.
  - nra.
  - nra.
  - lra.
Qed.

(** The quotient the code rounds, and its rounding. *)
Lemma quotient_entry :
  smallest_normal * 2 <= Sk / sumQ l ->
  Qabs (fdiv Ck T - Sk / sumQ l)
  <= 4 * lengthQ l * unit_roundoff * (Sk / sumQ l).
Proof.
  intros Hbig.
  assert (Hu := unit_roundoff_pos).
  destruct a_bounds as [Ha0 Ha].
  destruct total_bounds as (HS & HTl & HTu & HT).
  destruct prefix_bounds as (HSk & HCl & HCu & HC).
  assert (HSk0 : 0 <= Sk) by lra.
  assert (Hu0 : 0 <= unit_roundoff) by lra.
  pose proof (quotient_upper Sk (sumQ l) Ck T a unit_roundoff
                HSk0 HS HT Ha0 Hu0 Ha HCu HTl) as Hup.
  destruct (quotient_lower Sk (sumQ l) Ck T a unit_roundoff
              HSk0 HS HT Ha0 Hu0 Ha HCl HTu) as [Hlow Hhalf].
  assert (Hsn : smallest_normal <= Ck / T) by lra.
  destruct (round_nearest_interval (Ck / T) Hsn) as (Hr1 & Hr2 & _).
  assert (Hau : a + unit_roundoff == lengthQ l * unit_roundoff)
    by (unfold a; ring).
  unfold fdiv. apply Qabs_Qle_condition.
  set (q := Ck / T) in *. set (r := Sk / sumQ l) in *.
  set (z := round_nearest q) in *.
  assert (E1 : r * (1 + 4 * (a + unit_roundoff))
               == r + 4 * lengthQ l * unit_roundoff * r)
    by (rewrite Hau; ring).
  assert (E2 : r * (1 - 4 * (a + unit_roundoff))
               == r - 4 * lengthQ l * unit_roundoff * r)
    by (rewrite Hau; ring).
  rewrite E1 in Hup. rewrite E2 in Hlow. split; lra.
Qed.

Lemma quotient_nonneg : 0 <= Ck / T.
Proof.
  destruct total_bounds as (_ & _ & _ & HT).
  destruct prefix_bounds as (_ & _ & _ & HC).
  apply Qle_shift_div_l; [exact HT | lra].
Qed.

Lemma prefix_finite : 2 * sumQ l <= pow2 1024 -> Ck < pow2 1024.
Proof.
  intros Hfin.
  destruct a_bounds as [Ha0 Ha].
  destruct total_bounds as (HS & _).
  destruct prefix_bounds as (HSk & _ & HCu & _).
  assert (Hle : Sk <= sumQ l) by (apply sumQ_firstn_le_total; exact nonneg_entries).
  assert (Hu := unit_roundoff_pos).
  assert (E : 0 <= (sumQ l - Sk) * (1 + 2 * a))
    by (apply Qmult_le_0_compat; lra).
  assert (E' : 0 <= sumQ l * (1 - 4 * a)) by (apply Qmult_le_0_compat; lra).
  nra.
Qed.

End RatioOfRoundedSums.

(** ** The number of rows to flag *)

Lemma Qtruncate_Z (z : Z) : Qtruncate (inject_Z z) = z.
Proof.
  unfold Qtruncate.
  destruct (Qle_bool 0 (inject_Z z)); [apply Qfloor_Z | apply Qceiling_Z].
Qed.

Lemma round64_finite (x : Q) :
  Qabs (round_nearest x) < pow2 1024 -> round64 x = Finite (round_nearest x).
Proof.
  intros H. unfold round64. cbv zeta.
  destruct (Qle_bool (pow2 1024) (Qabs (round_nearest x))) eqn:Hb;
    [| reflexivity].
  apply Qle_bool_iff in Hb. apply Qle_not_lt in Hb. contradiction.
Qed.

Lemma round64_overflow (x : Q) :
  pow2 1024 <= Qabs (round_nearest x) -> exists s, round64 x = Infinity s.
Proof.
  intros H. unfold round64. cbv zeta. apply Qle_bool_iff in H. rewrite H.
  eexists. reflexivity.
Qed.

Lemma float_of_nat_small (n : nat) :
  (Z.of_nat n < 2 ^ 53)%Z ->
  float_of_nat n = Finite (round_nearest (inject_Z (Z.of_nat n)))
  /\ round_nearest (inject_Z (Z.of_nat n)) == inject_Z (Z.of_nat n).
Proof.
  intros Hn.
  assert (Hr : round_nearest (inject_Z (Z.of_nat n)) == inject_Z (Z.of_nat n))
    by (apply round_nearest_int; lia).
  split; [| exact Hr]. unfold float_of_nat. apply round64_finite.
  rewrite Hr. rewrite Qabs_pos
    by (change 0 with (inject_Z 0); rewrite <- Zle_Qle; lia).
  apply Qlt_le_trans with (pow2 53); [| apply pow2_le; lia].
  rewrite (pow2_int 53) by lia. rewrite <- Zlt_Qlt. exact Hn.
Qed.

(** Below [2^53] rounding moves a number by at most a half. *)
Lemma round_nearest_half (x : Q) :
  0 <= x -> x < pow2 53 -> Qabs (round_nearest x - x) <= 1 # 2.
Proof.
  intros H0 Hx. destruct (Qeq_dec x 0) as [Hz | Hnz].
  - rewrite (round_nearest_zero x Hz). rewrite Hz. vm_compute. discriminate.
  - assert (Hp : 0 < x).
    { apply Qle_lteq in H0. destruct H0 as [H | H]; [exact H |].
      exfalso. apply Hnz. symmetry. exact H. }
    apply Qle_trans with ((1 # 2) * pow2 (ulp_exponent x));
      [apply round_nearest_error; exact Hp |].
    pose proof (ulp_exponent_pos x Hp) as Hk.
    destruct (log2_floor_spec x Hp) as [Hlo _].
    assert (He : (log2_floor x < 53)%Z)
      by (apply pow2_lt_inv; apply Qle_lt_trans with x; assumption).
    assert (Hk0 : (ulp_exponent x <= 0)%Z) by lia.
    pose proof (pow2_le _ _ Hk0) as Hp2. change (pow2 0) with 1 in Hp2.
    lra.
Qed.

Lemma Qceiling_near (x y : Q) :
  Qabs (y - x) <= 1 # 2 -> (Z.abs (Qceiling y - Qceiling x) <= 1)%Z.
Proof.
  intros H. apply Qabs_Qle_condition in H. destruct H as [Ha Hb].
  pose proof (Qle_ceiling x) as Hx. pose proof (Qle_ceiling y) as Hy.
  assert (H1 : (Qceiling y <= Qceiling x + 1)%Z).
  { rewrite <- (Qceiling_Z (Qceiling x + 1)). apply Qceiling_resp_le.
    rewrite inject_Z_plus. change (inject_Z 1) with 1. lra. }
  assert (H2 : (Qceiling x <= Qceiling y + 1)%Z).
  { rewrite <- (Qceiling_Z (Qceiling y + 1)). apply Qceiling_resp_le.
    rewrite inject_Z_plus. change (inject_Z 1) with 1. lra. }
  lia.
Qed.

Section RoundedCount.

Variable n : nat.
Variable q : Q.
Hypothesis n_small : (Z.of_nat n < 2 ^ 53)%Z.

Let x : Q := inject_Z (Z.of_nat n) * q.

Lemma product_rounded : fmul (float_of_nat n) (Finite q) = round64 x.
Proof.
  destruct (float_of_nat_small n n_small) as [-> Hr]. cbn [fmul].
  unfold round64. cbv zeta.
  rewrite (round_nearest_comp
             (round_nearest (inject_Z (Z.of_nat n)) * q) x)
    by (unfold x; rewrite Hr; reflexivity).
  reflexivity.
Qed.

(** A finite product gives its ceiling. *)
Lemma count_finite :
  Qabs (round_nearest x) < pow2 1024 ->
  int_of_float (np_ceil (fmul (float_of_nat n) (Finite q)))
  = inr (Qceiling (round_nearest x)).
Proof.
  intros H. rewrite product_rounded, (round64_finite x H).
  cbn [np_ceil int_of_float]. rewrite Qtruncate_Z. reflexivity.
Qed.

(** A product that overflows raises. *)
Lemma count_overflow :
  pow2 1024 <= Qabs (round_nearest x) ->
  int_of_float (np_ceil (fmul (float_of_nat n) (Finite q)))
  = inl (OverflowError infinity_to_integer).
Proof.
  intros H. rewrite product_rounded.
  destruct (round64_overflow x H) as [s ->]. reflexivity.
Qed.

Lemma n_nonneg : 0 <= inject_Z (Z.of_nat n).
Proof. change 0 with (inject_Z 0). rewrite <- Zle_Qle. lia. Qed.

Lemma count_nonneg (num : Z) :
  0 <= q ->
  int_of_float (np_ceil (fmul (float_of_nat n) (Finite q))) = inr num ->
  num = Qceiling (round_nearest x) /\ (0 <= num)%Z.
Proof.
  intros Hq H.
  assert (Hx : 0 <= x) by (apply Qmult_le_0_compat; [apply n_nonneg | exact Hq]).
  pose proof (round_nearest_nonneg x Hx) as Hr.
  destruct (Qlt_le_dec (Qabs (round_nearest x)) (pow2 1024)) as [Hf | Ho].
  - rewrite (count_finite Hf) in H. injection H as <-. split; [reflexivity |].
    rewrite <- (Qceiling_Z 0). apply Qceiling_resp_le. exact Hr.
  - rewrite (count_overflow Ho) in H. discriminate.
Qed.



End RoundedCount.

(** A larger contamination does not give a smaller number. *)
Lemma count_monotone (n : nat) (q1 q2 : Q) (num1 num2 : Z) :
  (Z.of_nat n < 2 ^ 53)%Z -> 0 <= q1 -> q1 <= q2 ->
  int_of_float (np_ceil (fmul (float_of_nat n) (Finite q1))) = inr num1 ->
  int_of_float (np_ceil (fmul (float_of_nat n) (Finite q2))) = inr num2 ->
  (0 <= num1 <= num2)%Z.
Proof.
  intros Hn Hq1 Hq12 H1 H2.
  assert (Hq2 : 0 <= q2) by (apply Qle_trans with q1; assumption).
  destruct (count_nonneg n q1 Hn num1 Hq1 H1) as [-> Hlo].
  destruct (count_nonneg n q2 Hn num2 Hq2 H2) as [-> _].
  split; [exact Hlo |]. apply Qceiling_resp_le. apply round_nearest_mono.
  - apply Qmult_le_0_compat; [apply n_nonneg | exact Hq1].
  - rewrite !(Qmult_comm (inject_Z (Z.of_nat n))).
    apply Qmult_le_compat_r; [exact Hq12 | apply n_nonneg].
Qed.

(** ** The ratios in float64 *)

Lemma fold_left_fadd_rounded (v l : vector) (acc : Q) :
  RoundedSum l acc -> RoundedSum (l ++ v) (fold_left fadd v acc).
Proof.
  revert l acc. induction v as [| x v IH]; intros l acc H.
  - rewrite app_nil_r. exact H.
  - cbn [fold_left].
    replace (l ++ x :: v) with ((l ++ [x]) ++ v)
      by (rewrite <- app_assoc; reflexivity).
    apply IH. apply sum_add; [exact H | apply sum_one].
Qed.

Lemma sequential_sum_contract : FloatSumContract sequential_sum.
Proof.
  constructor. intros v Hne. destruct v as [| x v]; [contradiction |].
  cbn [np_sum64 sequential_sum].
  exact (fold_left_fadd_rounded v [x] x (sum_one x)).
Qed.

Section FloatRatios.

Context {C : Collaborators} {F : FloatSum} {FC : FloatSumContract F}.
Variable self : KPCA_Recon_Error.

Let lambdas := full_lambdas self.
Let m := List.length lambdas.
Let tolerance : Q := 4 * lengthQ lambdas * unit_roundoff.

Lemma get_ev_ratio64_length : List.length (get_ev_ratio64 self) = m.
Proof.
  unfold get_ev_ratio64. rewrite length_map. apply np_cumsum64_length.
Qed.

Lemma get_ev_ratio64_nth (k : nat) :
  (k < m)%nat ->
  nth k (get_ev_ratio64 self) 0
  = fdiv (nth k (np_cumsum64 lambdas) 0) (np_sum64 lambdas).
Proof.
  intros Hk. unfold get_ev_ratio64. fold lambdas.
  rewrite (nth_indep _ 0 ((fun x => fdiv x (np_sum64 lambdas)) 0))
    by (rewrite length_map, np_cumsum64_length; exact Hk).
  rewrite (map_nth (fun x => fdiv x (np_sum64 lambdas))). reflexivity.
Qed.

Hypothesis kept : lambdas <> [].
Hypothesis floats :
  forall x, In x lambdas -> smallest_normal <= x /\ round_nearest x == x.
Hypothesis few : 8 * lengthQ lambdas * unit_roundoff <= 1.

Lemma lambdas_normal : forall x, In x lambdas -> smallest_normal <= x.
Proof. intros x Hx. apply (floats x Hx). Qed.

Lemma total_rounded64 : RoundedSum lambdas (np_sum64 lambdas).
Proof. apply np_sum64_rounded. exact kept. Qed.

Lemma tolerance_small : 0 <= tolerance /\ tolerance <= 1 # 2.
Proof.
  pose proof unit_roundoff_pos as Hu.
  assert (Hc : 1 <= lengthQ lambdas) by (apply lengthQ_pos; exact kept).
  unfold tolerance. split; [| lra].
  apply Qmult_le_0_compat; lra.
Qed.

(** Entry [k] against the exact cumulative ratio. *)
Lemma ratio64_entry (k : nat) :
  (k < m)%nat ->
  smallest_normal * 2 <= cumulative_ratio self (S k) ->
  Qabs (nth k (get_ev_ratio64 self) 0 - cumulative_ratio self (S k))
  <= tolerance * cumulative_ratio self (S k).
Proof.
  intros Hk Hbig. rewrite (get_ev_ratio64_nth k Hk).
  exact (quotient_entry lambdas (np_sum64 lambdas) total_rounded64
           lambdas_normal few k Hk Hbig).
Qed.


Lemma ratio64_step (i : nat) :
  (S i < List.length (get_ev_ratio64 self))%nat ->
  nth i (get_ev_ratio64 self) 0 <= nth (S i) (get_ev_ratio64 self) 0.
Proof.
  intros Hi. rewrite get_ev_ratio64_length in Hi.
  rewrite !get_ev_ratio64_nth by lia. unfold fdiv.
  destruct (total_bounds lambdas (np_sum64 lambdas) total_rounded64
              lambdas_normal few) as (_ & _ & _ & HT).
  apply round_nearest_mono.
  - apply (quotient_nonneg lambdas (np_sum64 lambdas) total_rounded64
             lambdas_normal few i). unfold m in Hi. lia.
  - unfold Qdiv. apply Qmult_le_compat_r.
    + apply np_cumsum64_step; [| exact Hi].
      intros x Hx. destruct (floats x Hx) as [Hn Hr]. split; [| exact Hr].
      apply Qle_trans with smallest_normal; [| exact Hn].
      apply Qlt_le_weak. apply pow2_pos.
    + apply Qinv_le_0_compat. apply Qlt_le_weak. exact HT.
Qed.

Lemma m_positive : (1 <= m)%nat.
Proof.
  unfold m. destruct lambdas as [| x l]; [| cbn; lia].
  contradiction kept. reflexivity.
Qed.

Lemma ratio64_last : Qabs (last (get_ev_ratio64 self) 0 - 1) <= tolerance.
Proof.
  pose proof m_positive as Hm.
  rewrite last_as_nth, get_ev_ratio64_length.
  assert (Hone : cumulative_ratio self (S (m - 1)) == 1).
  { unfold cumulative_ratio. replace (S (m - 1)) with m by lia.
    unfold m. fold lambdas. rewrite firstn_all.
    assert (HS : 0 < sumQ lambdas)
      by (apply sumQ_pos; [exact kept | exact lambdas_normal]).
    field. intros H. rewrite H in HS. discriminate. }
  assert (Hbig : smallest_normal * 2 <= cumulative_ratio self (S (m - 1)))
    by (rewrite Hone; vm_compute; discriminate).
  assert (Hk : (m - 1 < m)%nat) by lia.
  pose proof (ratio64_entry (m - 1) Hk Hbig) as H.
  set (r := nth (m - 1) (get_ev_ratio64 self) 0) in *.
  apply Qabs_Qle_condition in H. apply Qabs_Qle_condition.
  rewrite Hone in H. lra.
Qed.


(** No sum overflows when twice the exact sum does not. *)
Lemma ratio64_finite :
  2 * sumQ lambdas <= pow2 1024 ->
  np_sum64 lambdas < pow2 1024
  /\ forall k, (k < m)%nat -> nth k (np_cumsum64 lambdas) 0 < pow2 1024.
Proof.
  intros Hfin. split.
  - destruct (total_bounds lambdas (np_sum64 lambdas) total_rounded64
                lambdas_normal few) as (HS & _ & HTu & _).
    destruct (a_bounds lambdas (np_sum64 lambdas) total_rounded64 few)
      as [Ha0 Ha].
    pose proof unit_roundoff_pos as Hu.
    set (a := (lengthQ lambdas - 1) * unit_roundoff) in *.
    assert (E : 0 <= sumQ lambdas * (1 - 4 * a))
      by (apply Qmult_le_0_compat; lra).
    nra.
  - intros k Hk.
    exact (prefix_finite lambdas (np_sum64 lambdas) total_rounded64
             lambdas_normal few k Hk Hfin).
Qed.

(** Claim C2, amended.  The eigenvalues kept by the full decomposition
    being floats in the normal range (at most 2^50 of them, twice their sum
    below the overflow threshold), [get_ev_ratio] computed in float64
    returns one entry for each of these eigenvalues (however many the
    decomposition keeps), the entries do not decrease, entry [k] equals
    (sum of the top [k] eigenvalues) / (sum of all eigenvalues) within the
    relative tolerance [4 m 2^-53] (wherever that ratio is at least
    [2^-1021]), and the last entry equals 1 within the tolerance
    [4 m 2^-53], which is below [10^-6] for up to [10^9] eigenvalues.  No
    sum overflows. *)
Theorem get_ev_ratio64_cumulative :
  2 * sumQ lambdas <= pow2 1024 ->
  List.length (get_ev_ratio64 self) = m
  /\ (forall k, (1 <= k <= m)%nat ->
        smallest_normal * 2 <= cumulative_ratio self k ->
        Qabs (nth (k - 1) (get_ev_ratio64 self) 0 - cumulative_ratio self k)
        <= tolerance * cumulative_ratio self k)
  /\ (forall i j, (i <= j < m)%nat ->
        nth i (get_ev_ratio64 self) 0 <= nth j (get_ev_ratio64 self) 0)
  /\ Qabs (last (get_ev_ratio64 self) 0 - 1) <= tolerance
  /\ ((Z.of_nat m <= 10 ^ 9)%Z ->
      Qabs (last (get_ev_ratio64 self) 0 - 1) <= 1 # 1000000)
  /\ np_sum64 lambdas < pow2 1024
  /\ (forall k, (k < m)%nat -> nth k (np_cumsum64 lambdas) 0 < pow2 1024).
Proof.
  intros Hfin. split; [apply get_ev_ratio64_length |].
  split; [| split; [| split; [| split]]].
  - intros k Hk Hbig. replace k with (S (k - 1)) in Hbig |- * at 2 3 by lia.
    replace (S (k - 1) - 1)%nat with (k - 1)%nat by lia.
    apply ratio64_entry; [lia | exact Hbig].
  - intros i j Hij. apply steps_nondecreasing; [exact ratio64_step |].
    rewrite get_ev_ratio64_length. exact Hij.
  - exact ratio64_last.
  - intros Hm. apply Qle_trans with tolerance; [exact ratio64_last |].
    unfold tolerance, lengthQ. fold m.
    apply Qle_trans with (4 * inject_Z (10 ^ 9) * unit_roundoff).
    + apply Qmult_le_compat_r; [| apply Qlt_le_weak; apply unit_roundoff_pos].
      assert (Hq : inject_Z (Z.of_nat m) <= inject_Z (10 ^ 9))
        by (rewrite <- Zle_Qle; exact Hm).
      lra.
    + vm_compute. discriminate.
  - exact (ratio64_finite Hfin).
Qed.


End FloatRatios.

(** ** The labeler *)

Section Labeler.

Context {C : Collaborators} {AC : ArgsortContract C}.
Variable self : KPCA_Recon_Error.

Let n := nrows (self_matrix self).

Lemma anomaly_num_finite_contamination (q : Q) :
  contamination self = Finite q ->
  anomaly_num self
  = int_of_float (np_ceil (fmul (float_of_nat n) (Finite q))).
Proof. intros H. unfold anomaly_num. rewrite H. reflexivity. Qed.

(** What makes the conversion to an integer raise. *)
Lemma anomaly_num_inl (e : exn) :
  anomaly_num self = inl e ->
  (e = OverflowError infinity_to_integer
   /\ exists s, fmul (float_of_nat n) (contamination self) = Infinity s)
  \/ (e = ValueError nan_to_integer
      /\ fmul (float_of_nat n) (contamination self) = NaN).
Proof.
  unfold anomaly_num. fold n.
  destruct (fmul (float_of_nat n) (contamination self)) as [p | s |];
    cbn [np_ceil int_of_float]; intros H.
  - discriminate.
  - injection H as <-. left. split; [reflexivity | exists s; reflexivity].
  - injection H as <-. right. split; reflexivity.
Qed.

Lemma anomaly_num_finite_product (p : Q) :
  fmul (float_of_nat n) (contamination self) = Finite p ->
  anomaly_num self = inr (Qceiling p).
Proof.
  intros H. unfold anomaly_num. fold n. rewrite H.
  cbn [np_ceil int_of_float]. rewrite Qtruncate_Z. reflexivity.
Qed.

(** What [get_anomaly_indices] and [predict] do once the scores and the
    number of rows to flag are there. *)
Lemma labeler_run (g g' : RandomState) (scores : vector) (num : Z) :
  get_anomaly_score self g = (inr scores, g') ->
  (1 <= List.length (full_lambdas self))%nat ->
  anomaly_num self = inr num ->
  let indices_desc := np_argsort (vneg scores) in
  let idx := slice_to indices_desc num in
  let pred := map (fun i => if index_in i idx then 1%nat else 0%nat) (seq 0 n) in
  get_anomaly_indices self g = (inr idx, g')
  /\ predict self g = (inr pred, g')
  /\ Permutation indices_desc (seq 0 n)
  /\ NoDup idx
  /\ (forall i, In i idx -> (i < n)%nat)
  /\ count_occ Nat.eq_dec pred 1%nat = List.length idx
  /\ (count_occ Nat.eq_dec pred 1 + count_occ Nat.eq_dec pred 0 = n)%nat.
Proof.
  intros Hrun Hne Hnum indices_desc idx pred.
  assert (Hlen : List.length scores = n)
    by (apply (get_anomaly_score_rows self g g' scores Hrun Hne)).
  assert (Hperm : Permutation indices_desc (seq 0 n)).
  { unfold indices_desc. rewrite <- Hlen.
    replace (List.length scores) with (List.length (vneg scores))
      by (unfold vneg; apply length_map).
    apply argsort_perm. }
  assert (Hnd : NoDup idx).
  { apply slice_to_NoDup.
    apply (Permutation_NoDup (Permutation_sym Hperm)). apply seq_NoDup. }
  assert (Hin : forall i, In i idx -> (i < n)%nat).
  { intros i Hi. apply slice_to_In in Hi.
    apply (Permutation_in _ Hperm) in Hi. apply in_seq in Hi. lia. }
  assert (Hidx : get_anomaly_indices self g = (inr idx, g')).
  { apply get_anomaly_indices_inr. exists scores, num.
    split; [exact Hrun | split; [exact Hnum | reflexivity]]. }
  assert (Hpred : predict self g = (inr pred, g'))
    by (apply predict_inr; exists idx; split; [exact Hidx | reflexivity]).
  destruct (count_flags idx (seq 0 n)) as [H1 H0].
  repeat split; try assumption.
  - unfold pred. rewrite H1. apply flagged_count; assumption.
  - unfold pred. rewrite H0. apply length_seq.
Qed.

(** When the conversion raises, it does so after the scores are computed,
    and [get_anomaly_indices] and [predict] raise with it. *)
Lemma labeler_raise (g g' : RandomState) (scores : vector) (e : exn) :
  get_anomaly_score self g = (inr scores, g') ->
  anomaly_num self = inl e ->
  get_anomaly_indices self g = (inl e, g') /\ predict self g = (inl e, g').
Proof.
  intros Hrun Hnum.
  assert (Hidx : get_anomaly_indices self g = (inl e, g')).
  { apply get_anomaly_indices_inl. right.
    split; [exists scores; exact Hrun | exact Hnum]. }
  split; [exact Hidx |]. apply predict_inl. exact Hidx.
Qed.




(** Claim C10, amended.  On a run that returns scores (the decomposition
    keeping at least one eigenvalue), for a float contamination [c >= 0],
    also above 1/2 or above 1 (and fewer than 2^53 rows): when the float
    product [n * c] is finite, [get_anomaly_indices] returns [min(A, n)]
    pairwise distinct indices below [n], where [A] is the ceiling of the
    rounded product (within one of the exact ceil(n*c) when
    [n * c < 2^53]), and [predict] returns a vector with exactly that many
    entries equal to 1; when the product overflows, both raise
    [OverflowError]. *)
Theorem out_of_range_contamination_flags (g g' : RandomState) (scores : vector)
    (q : Q) :
  get_anomaly_score self g = (inr scores, g') ->
  (1 <= List.length (full_lambdas self))%nat ->
  contamination self = Finite q ->
  0 <= q ->
  (Z.of_nat n < 2 ^ 53)%Z ->
  let product := round_nearest (inject_Z (Z.of_nat n) * q) in
  (product < pow2 1024 ->
   exists idx pred,
     get_anomaly_indices self g = (inr idx, g')
     /\ predict self g = (inr pred, g')
     /\ List.length idx = Nat.min (Z.to_nat (Qceiling product)) n
     /\ NoDup idx
     /\ (forall i, In i idx -> (i < n)%nat)
     /\ count_occ Nat.eq_dec pred 1%nat
        = Nat.min (Z.to_nat (Qceiling product)) n)
  /\ (inject_Z (Z.of_nat n) * q < pow2 53 ->
      (Z.abs (Qceiling product - Qceiling (inject_Z (Z.of_nat n) * q)) <= 1)%Z)
  /\ (pow2 1024 <= product ->
      get_anomaly_indices self g = (inl (OverflowError infinity_to_integer), g')
      /\ predict self g = (inl (OverflowError infinity_to_integer), g')).
Proof.
  intros Hrun Hne Hc Hq Hn product.
  assert (Hx : 0 <= inject_Z (Z.of_nat n) * q)
    by (apply Qmult_le_0_compat; [apply n_nonneg | exact Hq]).
  assert (Hp : 0 <= product) by (apply round_nearest_nonneg; exact Hx).
  split; [| split].
  - intros Hfin.
    assert (Hnum : anomaly_num self = inr (Qceiling product)).
    { rewrite (anomaly_num_finite_contamination q Hc).
      apply (count_finite n q Hn). fold product.
      rewrite Qabs_pos by exact Hp. exact Hfin. }
    destruct (labeler_run g g' scores _ Hrun Hne Hnum)
      as [Hidx [Hpred [Hperm [Hnd [Hin [Hones _]]]]]].
    eexists. eexists. split; [exact Hidx |]. split; [exact Hpred |].
    assert (Hlo : (0 <= Qceiling product)%Z)
      by (rewrite <- (Qceiling_Z 0); apply Qceiling_resp_le; exact Hp).
    assert (Hlen : List.length
                     (slice_to (np_argsort (vneg scores)) (Qceiling product))
                   = Nat.min (Z.to_nat (Qceiling product)) n).
    { rewrite slice_to_nonneg by exact Hlo.
      rewrite length_firstn, (Permutation_length Hperm), length_seq.
      reflexivity. }
    repeat split; try assumption. rewrite Hones. exact Hlen.
  - intros Hsmall. apply Qceiling_near. apply round_nearest_half; assumption.
  - intros Hover.
    assert (Hnum : anomaly_num self = inl (OverflowError infinity_to_integer)).
    { rewrite (anomaly_num_finite_contamination q Hc).
      apply (count_overflow n q Hn). fold product.
      rewrite Qabs_pos by exact Hp. exact Hover. }
    apply (labeler_raise g g' scores _ Hrun Hnum).
Qed.

End Labeler.

Section Unchecked.

Context {C : Collaborators}.

(** Claim C4, amended.  The constructor stores the contamination it is
    given, whatever its value, and no operation checks it.  The scores do
    not depend on it.  [get_anomaly_indices] and [predict] compute the
    scores first, and raise what [get_anomaly_score] raises; once the scores
    are there, the only error a contamination can cause is that of the
    conversion [int(np.ceil(n * c))]: [OverflowError] when the float product
    is infinite, [ValueError] when it is NaN.  With a finite product, in or
    out of [[0, 1/2]], nothing more is raised. *)
Theorem contamination_is_not_validated (raw : matrix) (c1 c2 : float64)
    (kernel : string) (gamma : option Q) (seed : Z) (g : RandomState) :
  let self := init raw c1 kernel gamma seed in
  let product := fmul (float_of_nat (nrows (self_matrix self))) c1 in
  contamination self = c1
  /\ get_anomaly_score self g
     = get_anomaly_score (init raw c2 kernel gamma seed) g
  /\ (forall e g',
        get_anomaly_indices self g = (inl e, g') <->
        get_anomaly_score self g = (inl e, g')
        \/ (exists scores, get_anomaly_score self g = (inr scores, g'))
           /\ anomaly_num self = inl e)
  /\ (forall e g',
        predict self g = (inl e, g') <->
        get_anomaly_score self g = (inl e, g')
        \/ (exists scores, get_anomaly_score self g = (inr scores, g'))
           /\ anomaly_num self = inl e)
  /\ (forall e,
        anomaly_num self = inl e ->
        (e = OverflowError infinity_to_integer
         /\ exists s, product = Infinity s)
        \/ (e = ValueError nan_to_integer /\ product = NaN))
  /\ (forall p, product = Finite p -> anomaly_num self = inr (Qceiling p)).
Proof.
  intros self product.
  split; [reflexivity |]. split; [reflexivity |].
  assert (Hidx : forall e g',
            get_anomaly_indices self g = (inl e, g') <->
            get_anomaly_score self g = (inl e, g')
            \/ (exists scores, get_anomaly_score self g = (inr scores, g'))
               /\ anomaly_num self = inl e)
    by (intros e g'; apply get_anomaly_indices_inl).
  split; [exact Hidx |]. split; [| split].
  - intros e g'. rewrite predict_inl. apply Hidx.
  - intros e He. apply (anomaly_num_inl self e He).
  - intros p Hp. apply (anomaly_num_finite_product self p Hp).
Qed.

End Unchecked.

(** * Runs on concrete data *)

(** ** The scores (claim C1) *)

(** Claim C1, on the code.  On two rows of three features the
    decomposition keeps a single eigenvalue, so [get_ev_ratio] has one
    entry for three reconstruction matrices: the pairing of matrices with
    ratios stops after the first, and the score of row 0 is the weighted
    error of one component only, not the sum over the three component
    counts. *)
Theorem scores_stop_at_the_last_ratio :
  ncols (self_matrix detector23) = 3%nat
  /\ get_ev_ratio (C := stable23) detector23 = [4 # 4]
  /\ get_anomaly_score (C := stable23) detector23 0%nat
     = (inr [2828 # 2000; 2828 # 2000], 1%nat)
  /\ 2828 # 2000 == weighted_error_sum (C := stable23) detector23 1 0
  /\ specified_score (C := stable23) detector23 0 == 109248 # 32000
  /\ ~ 2828 # 2000 == specified_score (C := stable23) detector23 0.
Proof.
  split_all; try (vm_compute; reflexivity).
  vm_compute. discriminate.
Qed.

(** ** The ratios (claim C2) *)

(** Claim C2 fails as stated: on four rows of two features the
    decomposition keeps three eigenvalues and [get_ev_ratio] has three
    entries, not two, in exact arithmetic as in float64. *)
Lemma get_ev_ratio_length_is_not_d :
  ncols (self_matrix (detector42 (1 # 4))) = 2%nat
  /\ get_ev_ratio (C := stable42) (detector42 (1 # 4)) = [4 # 7; 6 # 7; 7 # 7]
  /\ List.length (get_ev_ratio (C := stable42) (detector42 (1 # 4)))
     <> ncols (self_matrix (detector42 (1 # 4)))
  /\ List.length (get_ev_ratio64 (C := stable42) (F := sequential_sum)
                    (detector42 (1 # 4)))
     <> ncols (self_matrix (detector42 (1 # 4))).
Proof.
  split_all; try (vm_compute; reflexivity); vm_compute; discriminate.
Qed.

(** The amended claim on the same detector: three ratios in float64, the
    last within [12 * 2^-53] of 1. *)
Lemma get_ev_ratio64_cumulative_witness :
  List.length (get_ev_ratio64 (C := stable42) (F := sequential_sum)
                 (detector42 (1 # 4))) = 3%nat
  /\ Qabs (last (get_ev_ratio64 (C := stable42) (F := sequential_sum)
                   (detector42 (1 # 4))) 0 - 1)
     <= 4 * 3 * unit_roundoff.
Proof.
  destruct (get_ev_ratio64_cumulative (C := stable42) (F := sequential_sum)
              (FC := sequential_sum_contract) (detector42 (1 # 4)))
    as [Hlen [_ [_ [Hlast _]]]].
  - vm_compute. discriminate.
  - intros x Hx. vm_compute in Hx.
    destruct Hx as [<- | [<- | [<- | []]]]; split; vm_compute;
      first [reflexivity | discriminate].
  - vm_compute. discriminate.
  - vm_compute. discriminate.
  - split; [exact Hlen | exact Hlast].
Defined.

(** ** The sweep (claims C6, C7, C9) *)

(** Claim C6 fails as stated: the configuration is valid and every
    reconstruction has the shape of the standardized matrix, yet the call
    raises, because the two reconstructions sampled by the spot check (with
    2 and 3 components, both clipped to the two rows) are identical. *)
Lemma reconstruct_matrix_may_raise :
  shape (self_matrix detector23) = (2%nat, 3%nat)
  /\ map shape (recon_list (C := stable23) detector23)
     = [(2%nat, 3%nat); (2%nat, 3%nat); (2%nat, 3%nat)]
  /\ fst (np_random_choice2 3 1%nat) = inr (1%nat, 2%nat)
  /\ reconstruct_matrix (C := stable23) detector23 1%nat
     = (inl (AssertionError different_description), 2%nat).
Proof. split_all; vm_compute; reflexivity. Qed.

(** On four rows of two features the two reconstructions differ and the
    sweep returns them. *)
Lemma reconstruct_matrix_sweep_witness :
  reconstruct_matrix (C := stable42) (detector42 (1 # 4)) 0%nat
  = (inr (recon_list (C := stable42) (detector42 (1 # 4))), 1%nat).
Proof.
  destruct (reconstruct_matrix_sweep (C := stable42) (detector42 (1 # 4)) 0%nat)
    as [_ [Hcheck _]].
  - vm_compute. lia.
  - destruct Hcheck as [i [j [Hdraw Hrun]]].
    + intros k Hk. change (ncols (self_matrix (detector42 (1 # 4)))) with 2%nat in Hk.
      assert (Hcases : k = 1%nat \/ k = 2%nat) by lia.
      destruct Hcases as [-> | ->]; vm_compute; reflexivity.
    + vm_compute in Hdraw. injection Hdraw as <- <-. exact Hrun.
Defined.

(** One feature: the sample of two positions out of one raises. *)
Lemma reconstruct_matrix_one_feature_witness :
  reconstruct_matrix (C := stable23) detector31 0%nat
  = (inl (ValueError sample_too_large), 0%nat).
Proof.
  apply (reconstruct_matrix_one_feature (C := stable23) detector31 0%nat).
  - vm_compute. reflexivity.
  - vm_compute. reflexivity.
Defined.


(** ** Two runs (claim C8) *)

(** Claim C8 fails as stated: the spot check samples from the global
    generator, which the configuration does not seed.  From one state the
    sample is (0, 1) and the run returns; from another it is (1, 2), two
    identical reconstructions, and the run raises. *)
Lemma runs_of_one_configuration_differ :
  fst (get_anomaly_score (C := stable23) detector23 0%nat)
  = inr [2828 # 2000; 2828 # 2000]
  /\ fst (get_anomaly_score (C := stable23) detector23 1%nat)
     = inl (AssertionError different_description)
  /\ fst (predict (C := stable23) detector23 0%nat) = inr [1%nat; 0%nat]
  /\ fst (predict (C := stable23) detector23 1%nat)
     = inl (AssertionError different_description).
Proof. split_all; vm_compute; reflexivity. Qed.

(** Two runs that return, from the states 0 and 5 of the generator. *)
Lemma completed_runs_agree_witness :
  [28 # 245; 196 # 245; 196 # 245; 28 # 245]
  = [28 # 245; 196 # 245; 196 # 245; 28 # 245]
  /\ [0%nat; 1%nat; 0%nat; 0%nat] = [0%nat; 1%nat; 0%nat; 0%nat].
Proof.
  apply (completed_runs_agree (C := stable42) (detector42 (1 # 4)) 0%nat 5%nat);
    vm_compute; reflexivity.
Defined.

(** ** The labeler (claims C3, C4, C5, C10) *)



(** Claim C4 fails as stated: a contamination of 3/4, and one of -1/4, are
    accepted by the constructor and by every operation; three of the four
    rows are flagged. *)
Lemma out_of_range_contamination_is_accepted :
  contamination (detector42 (3 # 4)) = Finite (3 # 4)
  /\ predict (C := stable42) (detector42 (3 # 4)) 0%nat
     = (inr [1%nat; 1%nat; 1%nat; 0%nat], 1%nat)
  /\ contamination (detector42 (- (1 # 4))) = Finite (- (1 # 4))
  /\ predict (C := stable42) (detector42 (- (1 # 4))) 0%nat
     = (inr [1%nat; 1%nat; 1%nat; 0%nat], 1%nat).
Proof. split_all; vm_compute; reflexivity. Qed.

(** The amended claim on a contamination of 10^308: the scores are
    computed, then the conversion of the infinite product raises. *)
Lemma contamination_is_not_validated_witness :
  get_anomaly_indices (C := stable42) (detector42 (inject_Z (10 ^ 308))) 0%nat
  = (inl (OverflowError infinity_to_integer), 1%nat).
Proof.
  destruct (contamination_is_not_validated (C := stable42) rows42
              (float_literal (inject_Z (10 ^ 308))) (float_literal (1 # 4))
              default_kernel None default_random_state 0%nat)
    as [_ [_ [Hidx _]]].
  apply Hidx. right. split.
  - eexists. vm_compute. reflexivity.
  - vm_compute. reflexivity.
Defined.



(** What is documented of [np.argsort] leaves the order of equal scores
    open.  This is a fact about the contract, not a run of NumPy: a sort
    that meets the contract and is not stable flags row 2 where the stable
    sort flags row 1, the two rows having the same score. *)
Remark argsort_contract_leaves_ties_open :
  ArgsortContract reversing42
  /\ get_anomaly_score (C := reversing42) (detector42 (1 # 4)) 0%nat
     = (inr [28 # 245; 196 # 245; 196 # 245; 28 # 245], 1%nat)
  /\ get_anomaly_indices (C := stable42) (detector42 (1 # 4)) 0%nat
     = (inr [1%nat], 1%nat)
  /\ get_anomaly_indices (C := reversing42) (detector42 (1 # 4)) 0%nat
     = (inr [2%nat], 1%nat).
Proof.
  split; [apply axis_reversing_contract |].
  split_all; vm_compute; reflexivity.
Qed.

(** Claim C10 fails as stated: with the contamination 10^308 on four rows
    the scores are computed, the float product [4 * 1e308] is infinite, and
    [get_anomaly_indices] and [predict] raise [OverflowError]. *)
Lemma overflowing_contamination_raises :
  (exists q, contamination (detector42 (inject_Z (10 ^ 308))) = Finite q)
  /\ (exists scores,
        get_anomaly_score (C := stable42)
          (detector42 (inject_Z (10 ^ 308))) 0%nat
        = (inr scores, 1%nat))
  /\ get_anomaly_indices (C := stable42)
       (detector42 (inject_Z (10 ^ 308))) 0%nat
     = (inl (OverflowError infinity_to_integer), 1%nat)
  /\ predict (C := stable42) (detector42 (inject_Z (10 ^ 308))) 0%nat
     = (inl (OverflowError infinity_to_integer), 1%nat).
Proof.
  split; [eexists; vm_compute; reflexivity |].
  split; [eexists; vm_compute; reflexivity |].
  split; vm_compute; reflexivity.
Qed.

(** Four rows, contamination 5/4: the product is 5 and the four rows are
    flagged. *)
Lemma out_of_range_contamination_flags_witness :
  exists idx pred,
    get_anomaly_indices (C := stable42) (detector42 (5 # 4)) 0%nat
    = (inr idx, 1%nat)
    /\ predict (C := stable42) (detector42 (5 # 4)) 0%nat = (inr pred, 1%nat)
    /\ List.length idx = 4%nat
    /\ count_occ Nat.eq_dec pred 1%nat = 4%nat.
Proof.
  destruct (out_of_range_contamination_flags (C := stable42)
              (AC := axis_stable_contract spectrum42) (detector42 (5 # 4))
              0%nat 1%nat [28 # 245; 196 # 245; 196 # 245; 28 # 245] (5 # 4))
    as [Hfinite _].
  - vm_compute. reflexivity.
  - vm_compute. lia.
  - vm_compute. reflexivity.
  - vm_compute. discriminate.
  - vm_compute. reflexivity.
  - destruct Hfinite as [idx [pred [Hidx [Hpred [Hlen [_ [_ Hones]]]]]]].
    + vm_compute. reflexivity.
    + exists idx, pred. split_all; assumption.
Defined.

(** * Further properties of the operations *)

(** ** The scores and the ratios *)

Lemma np_sum_squares_nonneg (v : vector) : 0 <= np_sum (np_square v).
Proof.
  rewrite np_sum_sumQ. apply sumQ_nonneg. intros x Hx.
  unfold np_square in Hx. apply in_map_iff in Hx. destruct Hx as [y [<- _]].
  destruct (Qlt_le_dec y 0) as [Hneg | Hpos].
  - setoid_replace (y * y) with ((- y) * (- y)) by ring.
    apply Qmult_le_0_compat; apply Qlt_le_weak;
      rewrite <- (Qopp_involutive 0); apply Qopp_lt_compat; exact Hneg.
  - apply Qmult_le_0_compat; exact Hpos.
Qed.

Lemma sumQ_firstn_nonneg (v : vector) (k : nat) :
  (forall x, In x v -> 0 <= x) -> 0 <= sumQ (firstn k v).
Proof.
  intros H. apply sumQ_nonneg. intros x Hx. apply H.
  apply (firstn_In k). exact Hx.
Qed.

Lemma sqrtQ_nonneg (x : Q) : 0 <= sqrtQ x.
Proof.
  unfold sqrtQ. rewrite Qred_correct. unfold Qle. cbn [Qnum Qden].
  rewrite Z.mul_1_r. cbn [Z.mul]. apply Z.sqrt_nonneg.
Qed.

Section ScoreFacts.

Context {C : Collaborators}.
Variable self : KPCA_Recon_Error.

Let d := ncols (self_matrix self).
Let n := nrows (self_matrix self).
Let lambdas := full_lambdas self.

Lemma cumulative_ratio_bounds (k : nat) :
  (forall x, In x lambdas -> 0 <= x) -> 0 < sumQ lambdas ->
  0 <= cumulative_ratio self k /\ cumulative_ratio self k <= 1.
Proof.
  intros Hpos Htotal. unfold cumulative_ratio. fold lambdas. split.
  - apply Qle_shift_div_l; [exact Htotal |]. rewrite Qmult_0_l.
    apply sumQ_firstn_nonneg. exact Hpos.
  - apply Qle_shift_div_r; [exact Htotal |]. rewrite Qmult_1_l.
    apply sumQ_firstn_le_total. exact Hpos.
Qed.

(** The score of a row, for any number of kept eigenvalues.  On a call of
    [get_anomaly_score] that returns, the decomposition keeping [m >= 1]
    eigenvalues, there is one score per row, and the score of row [i] is the
    sum over the component counts [1..min(d, m)] of the reconstruction error
    of the row weighted by the cumulative ratio; with [m >= d] this is the
    sum over all [d] component counts. *)
Theorem anomaly_score_weighted_errors (g g' : RandomState) (scores : vector) :
  get_anomaly_score self g = (inr scores, g') ->
  (1 <= List.length lambdas)%nat ->
  List.length scores = n
  /\ (forall i, (i < n)%nat ->
        nth i scores 0 ==
        weighted_error_sum self (Nat.min d (List.length lambdas)) i)
  /\ ((d <= List.length lambdas)%nat ->
      forall i, (i < n)%nat -> nth i scores 0 == specified_score self i).
Proof.
  intros Hrun Hne.
  destruct (get_anomaly_score_rows self g g' scores Hrun Hne) as [Hlen Hsum].
  split; [exact Hlen |]. split; [exact Hsum |].
  intros Hd. apply (get_anomaly_score_specified self g g' scores Hrun Hd).
Qed.

(** The scores are not negative.  When [np.sqrt] answers a non-negative
    number with a non-negative number and the kept eigenvalues are
    non-negative with a positive sum, every score of a call of
    [get_anomaly_score] that returns is at least 0. *)
Theorem anomaly_scores_nonneg (g g' : RandomState) (scores : vector) :
  (forall x, 0 <= x -> 0 <= np_sqrt x) ->
  (forall x, In x lambdas -> 0 <= x) ->
  0 < np_sum lambdas ->
  get_anomaly_score self g = (inr scores, g') ->
  forall i, (i < List.length scores)%nat -> 0 <= nth i scores 0.
Proof.
  intros Hsqrt Hpos Htotal Hrun i Hi. rewrite np_sum_sumQ in Htotal.
  assert (Hne : (1 <= List.length lambdas)%nat).
  { destruct lambdas as [| x l]; [| cbn; lia]. cbn in Htotal. discriminate. }
  destruct (get_anomaly_score_rows self g g' scores Hrun Hne) as [Hlen Hsum].
  rewrite Hlen in Hi. rewrite (Hsum i Hi). unfold weighted_error_sum.
  apply sumQ_nonneg. intros x Hx. apply in_map_iff in Hx.
  destruct Hx as [k [<- _]]. apply Qmult_le_0_compat.
  - unfold row_error, compute_vector_length. apply Hsqrt.
    apply np_sum_squares_nonneg.
  - apply cumulative_ratio_bounds; assumption.
Qed.

End ScoreFacts.

(** ** What the operations raise *)

Section RaiseFacts.

Context {C : Collaborators}.
Variable self : KPCA_Recon_Error.

Let X := self_matrix self.
Let d := ncols (self_matrix self).




(** When the sweep never raises.  [reconstruct_matrix] returns from every
    state of the global generator exactly when there are at least two
    features, every reconstruction has the shape of the standardized matrix
    and no two reconstructions are identical. *)
Theorem reconstruct_matrix_always_returns :
  (forall g, exists g', reconstruct_matrix self g = (inr (recon_list self), g'))
  <-> ((2 <= d)%nat
       /\ (forall k, (1 <= k <= d)%nat -> shape (recon_of self k) = shape X)
       /\ forall i j, (i < d)%nat -> (j < d)%nat -> i <> j ->
            meqb (nth i (recon_list self) []) (nth j (recon_list self) [])
            = false).
Proof.
  split.
  - intros Hall.
    assert (Hd : (2 <= d)%nat).
    { destruct (Hall 0%nat) as [g' Hr].
      destruct (Nat.lt_ge_cases d 2) as [Hlt | Hge]; [| exact Hge].
      apply reconstruct_matrix_inr in Hr.
      destruct Hr as [_ [_ [i [j [Hdraw _]]]]]. fold d in Hdraw.
      rewrite (np_random_choice2_small d 0%nat Hlt) in Hdraw. discriminate. }
    split; [exact Hd |]. split.
    + destruct (Hall 0%nat) as [g' Hr]. apply reconstruct_matrix_inr in Hr.
      apply Hr.
    + intros i j Hi Hj Hij.
      destruct (np_random_choice2_complete d i j Hi Hj Hij) as [g Hg].
      destruct (Hall g) as [g' Hr]. apply reconstruct_matrix_inr in Hr.
      destruct Hr as [_ [_ [i' [j' [Hdraw Hneq]]]]]. fold d in Hdraw.
      rewrite Hdraw in Hg. cbn in Hg. injection Hg as -> ->. exact Hneq.
  - intros [Hd [Hs Hneq]] g.
    destruct (np_random_choice2_draws d g Hd) as [i [j [Hdraw [Hi [Hj Hij]]]]].
    exists (S g). apply reconstruct_matrix_inr. split; [reflexivity |].
    split; [exact Hs |]. exists i, j. split; [exact Hdraw |].
    apply Hneq; assumption.
Qed.

End RaiseFacts.

(** ** The rows that are flagged *)

Lemma sorted_app_inv {A} (R : A -> A -> Prop) (l1 l2 : list A) (x y : A) :
  StronglySorted R (l1 ++ l2) -> In x l1 -> In y l2 -> R x y.
Proof.
  induction l1 as [| a l1 IH]; intros Hs Hx Hy; [destruct Hx |].
  cbn in Hs. apply StronglySorted_inv in Hs. destruct Hs as [Hs Ha].
  destruct Hx as [<- | Hx].
  - rewrite Forall_forall in Ha. apply Ha. apply in_or_app. right. exact Hy.
  - apply IH; assumption.
Qed.

Lemma slice_to_prefix {A} (l : list A) (stop : Z) :
  exists k, slice_to l stop = firstn k l.
Proof. unfold slice_to. destruct (0 <=? stop)%Z; eexists; reflexivity. Qed.

Lemma firstn_min_length {A} (k : nat) (l : list A) :
  firstn (Nat.min k (List.length l)) l = firstn k l.
Proof.
  destruct (Nat.le_ge_cases k (List.length l)) as [Hle | Hge].
  - rewrite Nat.min_l by exact Hle. reflexivity.
  - rewrite Nat.min_r by exact Hge. rewrite firstn_all, firstn_all2 by exact Hge.
    reflexivity.
Qed.

Section FlaggedRows.

Context {C : Collaborators} {AC : ArgsortContract C}.
Variable self : KPCA_Recon_Error.

Let n := nrows (self_matrix self).

(** The flagged rows have the highest scores.  On a run that returns, no
    row outside the result of [get_anomaly_indices] has a higher score than
    a row inside it, whatever the contamination. *)
Theorem flagged_rows_score_highest (g g' : RandomState) (scores : vector)
    (idx : list nat) (i j : nat) :
  get_anomaly_score self g = (inr scores, g') ->
  get_anomaly_indices self g = (inr idx, g') ->
  In i idx -> (j < List.length scores)%nat -> ~ In j idx ->
  nth j scores 0 <= nth i scores 0.
Proof.
  intros Hrun Hidx Hi Hj Hnj.
  apply get_anomaly_indices_inr in Hidx.
  destruct Hidx as [scores' [num [Hrun' [_ ->]]]].
  assert (scores' = scores) by congruence. subst scores'.
  set (indices_desc := np_argsort (vneg scores)) in *.
  destruct (slice_to_prefix indices_desc num) as [k Hk].
  rewrite Hk in Hi, Hnj.
  assert (Hperm : Permutation indices_desc (seq 0 (List.length scores))).
  { replace (List.length scores) with (List.length (vneg scores))
      by (unfold vneg; apply length_map).
    apply argsort_perm. }
  assert (Hdesc : descending scores indices_desc)
    by (apply ascending_vneg; apply argsort_ascending).
  assert (Hjin : In j (skipn k indices_desc)).
  { assert (Hjall : In j indices_desc).
    { apply (Permutation_in _ (Permutation_sym Hperm)). apply in_seq. lia. }
    rewrite <- (firstn_skipn k indices_desc) in Hjall.
    apply in_app_or in Hjall. destruct Hjall as [Hl | Hr];
      [contradiction | exact Hr]. }
  unfold descending in Hdesc. rewrite <- (firstn_skipn k indices_desc) in Hdesc.
  exact (sorted_app_inv _ _ _ i j Hdesc Hi Hjin).
Qed.

(** [predict] and [get_anomaly_indices] name the same rows.  On a run that
    returns (the decomposition keeping at least one eigenvalue), every entry
    of the prediction is 0 or 1, and the positions of its entries equal to 1
    are, up to their order, the result of [get_anomaly_indices]. *)
Theorem predict_marks_the_anomaly_indices (g g' : RandomState)
    (idx pred : list nat) :
  get_anomaly_indices self g = (inr idx, g') ->
  predict self g = (inr pred, g') ->
  (1 <= List.length (full_lambdas self))%nat ->
  (forall i, (i < n)%nat -> nth i pred 0%nat = 0%nat \/ nth i pred 0%nat = 1%nat)
  /\ Permutation
       (filter (fun i => Nat.eqb (nth i pred 0%nat) 1) (seq 0 n)) idx.
Proof.
  intros Hidx Hpred Hne.
  pose proof Hidx as Hidx0.
  apply get_anomaly_indices_inr in Hidx0.
  destruct Hidx0 as [scores [num [Hrun [Hnum Hslice]]]].
  destruct (labeler_run self g g' scores num Hrun Hne Hnum)
    as [Hidx' [Hpred' [_ [Hnd [Hin _]]]]].
  assert (Hi : idx = slice_to (np_argsort (vneg scores)) num)
    by exact Hslice.
  rewrite <- Hi in Hpred', Hnd, Hin.
  assert (Hp : pred = map (fun i => if index_in i idx then 1%nat else 0%nat)
                          (seq 0 n)).
  { rewrite Hpred in Hpred'. injection Hpred' as Hp'. exact Hp'. }
  assert (Hnth : forall i, (i < n)%nat ->
             nth i pred 0%nat = if index_in i idx then 1%nat else 0%nat).
  { intros i Hlt. rewrite Hp.
    rewrite (nth_indep _ 0%nat
               ((fun i => if index_in i idx then 1%nat else 0%nat) 0%nat))
      by (rewrite length_map, length_seq; exact Hlt).
    rewrite (map_nth (fun i => if index_in i idx then 1%nat else 0%nat)).
    rewrite seq_nth by exact Hlt. reflexivity. }
  split.
  - intros i Hlt. rewrite (Hnth i Hlt). destruct (index_in i idx); auto.
  - apply NoDup_Permutation.
    + apply NoDup_filter. apply seq_NoDup.
    + exact Hnd.
    + intros i. rewrite filter_In, in_seq. split.
      * intros [[_ Hlt] Hone]. cbn in Hlt. rewrite (Hnth i Hlt) in Hone.
        destruct (index_in i idx) eqn:Hm; [| discriminate].
        apply index_in_iff. exact Hm.
      * intros Hm. pose proof (Hin i Hm) as Hlt. fold n in Hlt.
        split; [lia |]. rewrite (Hnth i Hlt).
        apply index_in_iff in Hm. rewrite Hm. reflexivity.
Qed.

(** A negative number of anomalies counts from the end.  On a run that
    returns scores (the decomposition keeping at least one eigenvalue), when
    the number of rows to flag, [int(np.ceil(n * c))] on the float product,
    is a negative number [-m], [get_anomaly_indices] returns the [n - m]
    first indices of the descending order (none when [m >= n]) and
    [predict] has that many entries equal to 1. *)
Theorem negative_anomaly_num_drops_the_last (g g' : RandomState)
    (scores : vector) (num : Z) :
  get_anomaly_score self g = (inr scores, g') ->
  (1 <= List.length (full_lambdas self))%nat ->
  anomaly_num self = inr num ->
  (num < 0)%Z ->
  exists idx pred,
    get_anomaly_indices self g = (inr idx, g')
    /\ predict self g = (inr pred, g')
    /\ List.length idx = (n - Z.to_nat (- num))%nat
    /\ count_occ Nat.eq_dec pred 1%nat = (n - Z.to_nat (- num))%nat.
Proof.
  intros Hrun Hne Hnum Hneg.
  destruct (labeler_run self g g' scores num Hrun Hne Hnum)
    as [Hidx [Hpred [Hperm [_ [_ [Hones _]]]]]].
  eexists. eexists. split; [exact Hidx |]. split; [exact Hpred |].
  assert (Hlen : List.length (slice_to (np_argsort (vneg scores)) num)
                 = (n - Z.to_nat (- num))%nat).
  { unfold slice_to.
    destruct (Z.leb_spec 0 num) as [Hge | _]; [lia |].
    rewrite length_firstn, (Permutation_length Hperm), length_seq. lia. }
  split; [exact Hlen |]. rewrite Hones. exact Hlen.
Qed.

End FlaggedRows.

Section Contamination.

Context {C : Collaborators}.

(** A larger contamination flags more rows.  For two detectors that differ
    only in their float contamination, [0 <= c1 <= c2] (fewer than 2^53
    rows), on a run where [get_anomaly_indices] returns for both, the first
    result is a prefix of the second: every row flagged with [c1] is flagged
    with [c2]. *)
Theorem larger_contamination_flags_more (raw : matrix) (q1 q2 : Q)
    (kernel : string) (gamma : option Q) (seed : Z) (g g1 g2 : RandomState)
    (idx1 idx2 : list nat) :
  0 <= q1 -> q1 <= q2 ->
  (Z.of_nat (nrows (StandardScaler_fit_transform raw)) < 2 ^ 53)%Z ->
  get_anomaly_indices (init raw (Finite q1) kernel gamma seed) g
  = (inr idx1, g1) ->
  get_anomaly_indices (init raw (Finite q2) kernel gamma seed) g
  = (inr idx2, g2) ->
  g1 = g2
  /\ idx1 = firstn (List.length idx1) idx2
  /\ forall i, In i idx1 -> In i idx2.
Proof.
  intros Hq1 Hq12 Hn Hrun1 Hrun2.
  apply get_anomaly_indices_inr in Hrun1.
  destruct Hrun1 as [scores [num1 [Hscore [Hnum1 ->]]]].
  apply get_anomaly_indices_inr in Hrun2.
  destruct Hrun2 as [scores2 [num2 [Hscore2 [Hnum2 ->]]]].
  assert (Hsame : get_anomaly_score (init raw (Finite q1) kernel gamma seed) g
                  = get_anomaly_score (init raw (Finite q2) kernel gamma seed) g)
    by reflexivity.
  rewrite Hsame, Hscore2 in Hscore. injection Hscore as -> ->.
  set (indices_desc := np_argsort (vneg scores)).
  assert (Hmono : (0 <= num1 <= num2)%Z)
    by (apply (count_monotone _ q1 q2 num1 num2 Hn Hq1 Hq12 Hnum1 Hnum2)).
  assert (Hprefix :
            slice_to indices_desc num1
            = firstn (List.length (slice_to indices_desc num1))
                     (slice_to indices_desc num2)).
  { rewrite !slice_to_nonneg by lia.
    rewrite length_firstn, firstn_firstn.
    replace (Nat.min (Nat.min (Z.to_nat num1) (List.length indices_desc))
                     (Z.to_nat num2))
      with (Nat.min (Z.to_nat num1) (List.length indices_desc)) by lia.
    symmetry. apply firstn_min_length. }
  split; [reflexivity |]. split; [exact Hprefix |].
  intros i Hi. rewrite Hprefix in Hi. apply (firstn_In _ _ _ Hi).
Qed.

End Contamination.

(** ** Runs on concrete data, continued *)

(** Four rows of two features, three eigenvalues: the score of row 1 is the
    sum over the two component counts. *)
Lemma anomaly_score_weighted_errors_witness :
  nth 1 [28 # 245; 196 # 245; 196 # 245; 28 # 245] 0
  == specified_score (C := stable42) (detector42 (1 # 4)) 1.
Proof.
  destruct (anomaly_score_weighted_errors (C := stable42) (detector42 (1 # 4))
              0%nat 1%nat [28 # 245; 196 # 245; 196 # 245; 28 # 245])
    as [_ [_ Hspec]].
  - vm_compute. reflexivity.
  - vm_compute. lia.
  - apply Hspec; vm_compute; lia.
Defined.

Lemma anomaly_scores_nonneg_witness :
  0 <= nth 2 [28 # 245; 196 # 245; 196 # 245; 28 # 245] 0.
Proof.
  apply (anomaly_scores_nonneg (C := stable42) (detector42 (1 # 4))
           0%nat 1%nat [28 # 245; 196 # 245; 196 # 245; 28 # 245]).
  - intros x _. apply sqrtQ_nonneg.
  - intros x Hx. vm_compute in Hx.
    destruct Hx as [<- | [<- | [<- | []]]]; discriminate.
  - vm_compute. reflexivity.
  - vm_compute. reflexivity.
  - vm_compute. lia.
Defined.



(** Two features whose two reconstructions differ: the sweep returns from
    the state 7 of the generator as from any other. *)
Lemma reconstruct_matrix_always_returns_witness :
  exists g',
    reconstruct_matrix (C := stable42) (detector42 (1 # 4)) 7%nat
    = (inr (recon_list (C := stable42) (detector42 (1 # 4))), g').
Proof.
  apply (proj2 (reconstruct_matrix_always_returns (C := stable42)
                  (detector42 (1 # 4)))).
  change (ncols (self_matrix (detector42 (1 # 4)))) with 2%nat.
  split; [lia |]. split.
  - intros k Hk. assert (Hcases : k = 1%nat \/ k = 2%nat) by lia.
    destruct Hcases as [-> | ->]; vm_compute; reflexivity.
  - intros i j Hi Hj Hij.
    assert (Hcases : (i = 0 /\ j = 1)%nat \/ (i = 1 /\ j = 0)%nat) by lia.
    destruct Hcases as [[-> ->] | [-> ->]]; vm_compute; reflexivity.
Defined.

(** Row 1 is flagged, row 0 is not, and row 0 does not score higher. *)
Lemma flagged_rows_score_highest_witness :
  nth 0 [28 # 245; 196 # 245; 196 # 245; 28 # 245] 0
  <= nth 1 [28 # 245; 196 # 245; 196 # 245; 28 # 245] 0.
Proof.
  apply (flagged_rows_score_highest (C := stable42)
           (AC := axis_stable_contract spectrum42) (detector42 (1 # 4))
           0%nat 1%nat [28 # 245; 196 # 245; 196 # 245; 28 # 245] [1%nat]).
  - vm_compute. reflexivity.
  - vm_compute. reflexivity.
  - left. reflexivity.
  - vm_compute. lia.
  - intros [H | []]. discriminate.
Defined.

(** The positions of the ones of the prediction [[0; 1; 0; 0]] are [[1]]. *)
Lemma predict_marks_the_anomaly_indices_witness :
  Permutation
    (filter (fun i => Nat.eqb (nth i [0; 1; 0; 0]%nat 0%nat) 1) (seq 0 4))
    [1%nat].
Proof.
  apply (predict_marks_the_anomaly_indices (C := stable42)
           (AC := axis_stable_contract spectrum42) (detector42 (1 # 4))
           0%nat 1%nat [1%nat] [0; 1; 0; 0]%nat).
  - vm_compute. reflexivity.
  - vm_compute. reflexivity.
  - vm_compute. lia.
Defined.

(** Four rows, contamination -1/4: the number of rows to flag is -1 and
    three rows are flagged. *)
Lemma negative_anomaly_num_drops_the_last_witness :
  exists idx pred,
    get_anomaly_indices (C := stable42) (detector42 (- (1 # 4))) 0%nat
    = (inr idx, 1%nat)
    /\ predict (C := stable42) (detector42 (- (1 # 4))) 0%nat = (inr pred, 1%nat)
    /\ List.length idx = 3%nat
    /\ count_occ Nat.eq_dec pred 1%nat = 3%nat.
Proof.
  destruct (negative_anomaly_num_drops_the_last (C := stable42)
              (AC := axis_stable_contract spectrum42) (detector42 (- (1 # 4)))
              0%nat 1%nat [28 # 245; 196 # 245; 196 # 245; 28 # 245] (-1)%Z)
    as [idx [pred [Hidx [Hpred [Hlen Hones]]]]].
  - vm_compute. reflexivity.
  - vm_compute. lia.
  - vm_compute. reflexivity.
  - reflexivity.
  - exists idx, pred. split_all; assumption.
Defined.

(** Contamination 1/4 flags row 1; contamination 3/4 flags it too. *)
Lemma larger_contamination_flags_more_witness :
  [1%nat] = firstn 1 [1%nat; 2%nat; 0%nat]
  /\ forall i, In i [1%nat] -> In i [1%nat; 2%nat; 0%nat].
Proof.
  apply (larger_contamination_flags_more (C := stable42) rows42 (1 # 4) (3 # 4)
           default_kernel None default_random_state 0%nat 1%nat 1%nat
           [1%nat] [1%nat; 2%nat; 0%nat]).
  - vm_compute. discriminate.
  - vm_compute. discriminate.
  - vm_compute. reflexivity.
  - vm_compute. reflexivity.
  - vm_compute. reflexivity.
Defined.

(** ** Rows that are alike *)

Section EqualRows.

Context {C : Collaborators}.
Variable self : KPCA_Recon_Error.

Let X := self_matrix self.
Let d := ncols (self_matrix self).
Let n := nrows (self_matrix self).

(** Equal rows get equal scores.  On a call of [get_anomaly_score] that
    returns (the decomposition keeping at least one eigenvalue), two rows
    that are equal in the standardized matrix and in every reconstruction
    have the same score: a score depends on its row alone. *)
Theorem equal_rows_score_equal (g g' : RandomState) (scores : vector)
    (i j : nat) :
  get_anomaly_score self g = (inr scores, g') ->
  (1 <= List.length (full_lambdas self))%nat ->
  (i < n)%nat -> (j < n)%nat ->
  nth i X [] = nth j X [] ->
  (forall k, (1 <= k <= d)%nat ->
     nth i (recon_of self k) [] = nth j (recon_of self k) []) ->
  nth i scores 0 == nth j scores 0.
Proof.
  intros Hrun Hne Hi Hj Hrow Hrec.
  destruct (get_anomaly_score_rows self g g' scores Hrun Hne) as [_ Hsum].
  rewrite (Hsum i Hi), (Hsum j Hj). unfold weighted_error_sum.
  apply sumQ_ext. intros k Hk. apply in_seq in Hk.
  unfold row_error. fold X. rewrite Hrow, (Hrec k) by (fold d; lia).
  reflexivity.
Qed.

End EqualRows.

(** Two equal rows among four: their scores are equal. *)
Lemma equal_rows_score_equal_witness :
  nth 0 [3500 # 35182; 3500 # 35182; 24500 # 35182; 31500 # 35182] 0
  == nth 1 [3500 # 35182; 3500 # 35182; 24500 # 35182; 31500 # 35182] 0.
Proof.
  apply (equal_rows_score_equal (C := stable42)
           (init (C := stable42) [[7; 1]; [7; 1]; [-7; 7]; [-7; -9]]
                 (float_literal (1 # 4)) default_kernel None
                 default_random_state)
           0%nat 1%nat
           [3500 # 35182; 3500 # 35182; 24500 # 35182; 31500 # 35182]
           0%nat 1%nat).
  - vm_compute. reflexivity.
  - vm_compute. lia.
  - vm_compute. lia.
  - vm_compute. lia.
  - vm_compute. reflexivity.
  - intros k Hk.
    change (ncols (self_matrix
                     (init (C := stable42)
                           [[7; 1]; [7; 1]; [-7; 7]; [-7; -9]]
                           (float_literal (1 # 4)) default_kernel None
                           default_random_state)))
      with 2%nat in Hk.
    assert (Hcases : k = 1%nat \/ k = 2%nat) by lia.
    destruct Hcases as [-> | ->]; vm_compute; reflexivity.
Defined.
